(** * scan: recording and displaying masscan results

    A shallow embedding of [scan.go]: the posted results ([result], [port]),
    the rows shown in the browser ([scandata]), the two database routines
    [load] and [save], and the handlers [index], [ips] and [recvResults].

    The SQLite table [scan] is a list of rows in rowid order.  Calls into
    [database/sql] run in a small state monad over a [world] that holds the
    committed table, the working copy of an open transaction and an oracle
    that decides which driver calls fail. *)

From Stdlib Require Import ZArith List String Ascii Bool Lia.
From Stdlib Require Import Permutation Sorted.
Import ListNotations.

Local Open Scope string_scope.
Local Open Scope list_scope.
Local Open Scope Z_scope.

(** ** Decimal digits *)

Module Digits.

Definition isDigit (c : ascii) : bool :=
  let n := Z.of_nat (nat_of_ascii c) in (48 <=? n) && (n <=? 57).

Definition digitVal (c : ascii) : Z := Z.of_nat (nat_of_ascii c) - 48.

Definition digit (d : Z) : ascii := ascii_of_nat (Z.to_nat (48 + d)).

(** The loop of [appendInt] that assembles the decimal in reverse order;
    the fuel is the size of its 20-byte buffer. *)
Fixpoint decimal (fuel : nat) (u : Z) (acc : list ascii) : list ascii :=
  match fuel with
  | O => acc
  | S f =>
      if u <? 10 then digit u :: acc
      else decimal f (u / 10) (digit (u mod 10) :: acc)
  end.

(** [appendInt] of Go's [time] package: the decimal form of [x], zero-padded
    to [width]. *)
Definition appendInt (x : Z) (width : nat) : list ascii :=
  let sign := if x <? 0 then ["-"%char] else [] in
  let ds := decimal 20 (Z.abs x) [] in
  sign ++ repeat "0"%char (width - List.length ds)%nat ++ ds.

End Digits.

(** ** Times at minute resolution

    The layout ["2006-01-02 15:04"] prints and reads the civil fields down
    to the minute and nothing else, so a [Time] is its five civil fields.
    [time.Parse] yields UTC times, for which comparing instants is comparing
    the fields lexicographically. *)

Record Time : Type := mkTime
  { Year : Z; Month : Z; Day : Z; Hour : Z; Minute : Z }.

(** The zero [time.Time]: January 1, year 1, 00:00 UTC. *)
Definition zeroTime : Time := mkTime 1 1 1 0 0.

Definition lex (c : comparison) (d : comparison) : comparison :=
  match c with Eq => d | _ => c end.

Definition Time_compare (a b : Time) : comparison :=
  lex (Year a ?= Year b)
   (lex (Month a ?= Month b)
     (lex (Day a ?= Day b)
       (lex (Hour a ?= Hour b) (Minute a ?= Minute b)))).

Definition Equal (t u : Time) : bool :=
  match Time_compare t u with Eq => true | _ => false end.

Definition After (t u : Time) : bool :=
  match Time_compare t u with Gt => true | _ => false end.

Definition Time_le (t u : Time) : Prop := Time_compare t u <> Gt.

Definition isLeap (year : Z) : bool :=
  (year mod 4 =? 0) && (negb (year mod 100 =? 0) || (year mod 400 =? 0)).

Definition daysIn (m year : Z) : Z :=
  if (m =? 2) && isLeap year then 29
  else if m =? 2 then 28
  else if (m =? 4) || (m =? 6) || (m =? 9) || (m =? 11) then 30
  else 31.

(** A wall-clock reading that the layout can print in its fixed width. *)
Definition validTime (t : Time) : Prop :=
  0 <= Year t <= 9999 /\ 1 <= Month t <= 12 /\
  1 <= Day t <= daysIn (Month t) (Year t) /\
  0 <= Hour t <= 23 /\ 0 <= Minute t <= 59.

Definition timeFmt : string := "2006-01-02 15:04".

(** [t.Format("2006-01-02 15:04")]. *)
Definition Format (t : Time) : string :=
  string_of_list_ascii
    (Digits.appendInt (Year t) 4 ++ "-"%char ::
     Digits.appendInt (Month t) 2 ++ "-"%char ::
     Digits.appendInt (Day t) 2 ++ " "%char ::
     Digits.appendInt (Hour t) 2 ++ ":"%char ::
     Digits.appendInt (Minute t) 2).

Module Parse.
Import Digits.

(** [getnum]: one or two digits; exactly two when [fixed]. *)
Definition getnum (s : list ascii) (fixed : bool) : option (Z * list ascii) :=
  match s with
  | c1 :: rest =>
      if isDigit c1 then
        match rest with
        | c2 :: rest' =>
            if isDigit c2 then Some (digitVal c1 * 10 + digitVal c2, rest')
            else if fixed then None else Some (digitVal c1, rest)
        | [] => if fixed then None else Some (digitVal c1, rest)
        end
      else None
  | [] => None
  end.

(** The element [2006]: exactly four digits. *)
Definition getyear (s : list ascii) : option (Z * list ascii) :=
  match s with
  | a :: b :: c :: d :: rest =>
      if isDigit a && isDigit b && isDigit c && isDigit d
      then Some (((digitVal a * 10 + digitVal b) * 10 + digitVal c) * 10
                 + digitVal d, rest)
      else None
  | _ => None
  end.

Fixpoint cutspace (s : list ascii) : list ascii :=
  match s with
  | c :: rest => if Ascii.eqb c " " then cutspace rest else s
  | [] => []
  end.

(** [skip] for a one-byte literal of the layout.  A space in the layout
    stands for any run of spaces in the value. *)
Definition skip (s : list ascii) (lit : ascii) : option (list ascii) :=
  if Ascii.eqb lit " " then
    match s with
    | c :: _ => if Ascii.eqb c " " then Some (cutspace s) else None
    | [] => Some []
    end
  else
    match s with
    | c :: rest => if Ascii.eqb c lit then Some rest else None
    | [] => None
    end.

Definition bind {A B} (o : option A) (f : A -> option B) : option B :=
  match o with Some a => f a | None => None end.

Definition guard (b : bool) : option unit := if b then Some tt else None.

(** [time.Parse("2006-01-02 15:04", value)], [None] standing for an error. *)
Definition parse (value : list ascii) : option Time :=
  bind (getyear value) (fun '(year, v) =>
  bind (skip v "-") (fun v =>
  bind (getnum v true) (fun '(month, v) =>
  bind (guard ((0 <? month) && (month <=? 12))) (fun _ =>
  bind (skip v "-") (fun v =>
  bind (getnum v true) (fun '(day, v) =>
  bind (skip v " ") (fun v =>
  bind (getnum v false) (fun '(hour, v) =>
  bind (guard (hour <? 24)) (fun _ =>
  bind (skip v ":") (fun v =>
  bind (getnum v true) (fun '(min, v) =>
  bind (guard (min <? 60)) (fun _ =>
  bind (guard (match v with [] => true | _ => false end)) (fun _ =>
  bind (guard ((1 <=? day) && (day <=? daysIn month year))) (fun _ =>
  Some (mkTime year month day hour min))))))))))))))).

End Parse.

(** [t, _ := time.Parse(timeFmt, s)], also where the source writes the
    layout out: the error is dropped and the zero time stands in for an
    unreadable value. *)
Definition parseTime (s : string) : Time :=
  match Parse.parse (list_ascii_of_string s) with
  | Some t => t
  | None => zeroTime
  end.

(** ** Data *)

(** Results posted from masscan. *)
Module Posted.

Record service : Type := mkService { Name : string; Banner : string }.

Record port : Type := mkPort
  { Port : Z; Proto : string; Status : string; Service : service }.

Record result : Type := mkResult { IP : string; Ports : list port }.

End Posted.

(** Data retrieved from the database for display. *)
Record scandata : Type := mkScandata
  { IP : string; Port : Z; Proto : string;
    FirstSeen : string; LastSeen : string; New : bool }.

(** A row of the table [scan], with its columns. *)
Record scan_row : Type := mkRow
  { ip : string; port : Z; proto : string;
    firstseen : string; lastseen : string }.

Inductive error : Type :=
| ErrNoRows                      (* sql.ErrNoRows *)
| ErrConstraint                  (* UNIQUE constraint failed *)
| ErrTxDone                      (* sql.ErrTxDone *)
| ErrDriver (msg : string).      (* any other failure of the store *)

(** ** The store

    [committed] is what every connection sees; [pending] is the working
    copy of the transaction begun on the handle, if one is open.  The
    [calls]-th call into the driver fails when [fault] says so.

    The statement that creates the table is not part of the source.  Its
    columns hold what [save] binds, an integer for [port] and text for the
    others, and [keyed] records whether it declares [(ip, port, proto)]
    unique. *)
Record world : Type := mkWorld
  { keyed : bool;
    committed : list scan_row;
    pending : option (list scan_row);
    fault : nat -> option string;
    calls : nat }.

Definition M (A : Type) : Type := world -> A * world.

Definition ret {A} (a : A) : M A := fun w => (a, w).

Definition bind {A B} (m : M A) (k : A -> M B) : M B :=
  fun w => let (a, w') := m w in k a w'.

Declare Scope sql_scope.
Delimit Scope sql_scope with sql.
Notation "x <- m ;; k" := (bind m (fun x => k))
  (at level 100, m at next level, right associativity) : sql_scope.
Notation "' p <- m ;; k" := (bind m (fun p => k))
  (at level 100, p pattern, m at next level, right associativity) : sql_scope.
Notation "m ;; k" := (bind m (fun _ => k))
  (at level 100, right associativity) : sql_scope.
Local Open Scope sql_scope.

Definition set_pending (p : option (list scan_row)) (w : world) : world :=
  mkWorld (keyed w) (committed w) p (fault w) (calls w).

Definition set_committed (t : list scan_row) (w : world) : world :=
  mkWorld (keyed w) t (pending w) (fault w) (calls w).

(** One call into the driver: it fails or not, as the oracle has it. *)
Definition driver : M (option error) :=
  fun w =>
    (option_map ErrDriver (fault w (calls w)),
     mkWorld (keyed w) (committed w) (pending w) (fault w) (S (calls w))).

Arguments driver : simpl never.

Definition same_key (i : string) (p : Z) (pr : string) (r : scan_row) : bool :=
  String.eqb (ip r) i && (port r =? p) && String.eqb (proto r) pr.

Definition touch (i : string) (p : Z) (pr : string) (last : string)
    (r : scan_row) : scan_row :=
  if same_key i p pr r
  then mkRow (ip r) (port r) (proto r) (firstseen r) last
  else r.

Module Sql.

(** [sql.Open("sqlite3", dbFile)]. *)
Definition Open : M (option error) := driver.

(** [db.Begin()]. *)
Definition Begin : M (option error) :=
  e <- driver ;;
  match e with
  | Some err => ret (Some err)
  | None => fun w => (None, set_pending (Some (committed w)) w)
  end.

(** [txn.Prepare(...)] and [db.Prepare(...)]. *)
Definition Prepare : M (option error) := driver.

(** [txn.Rollback()]: the working copy is dropped. *)
Definition Rollback : M unit := fun w => (tt, set_pending None w).

(** [txn.Commit()]: the working copy becomes the table.  When the call
    fails nothing is published, and the transaction ends with the handle. *)
Definition Commit : M (option error) :=
  e <- driver ;;
  match e with
  | Some err => fun w => (Some err, set_pending None w)
  | None =>
      fun w =>
        match pending w with
        | Some t => (None, set_pending None (set_committed t w))
        | None => (Some ErrTxDone, w)
        end
  end.

(** [qry.QueryRow(ip, port, proto).Scan(&x)] for
    [SELECT 1 FROM scan WHERE ip=? AND port=? AND proto=?].  The statement
    was prepared on the handle [db], not on [txn], so it runs on a
    connection of its own and reads the committed table. *)
Definition QueryRowScan (i : string) (p : Z) (pr : string) : M (option error) :=
  e <- driver ;;
  match e with
  | Some err => ret (Some err)
  | None =>
      fun w =>
        (if existsb (same_key i p pr) (committed w) then None
         else Some ErrNoRows, w)
  end.

(** [insert.Exec(ip, port, proto, first, last)] for
    [INSERT INTO scan (ip, port, proto, firstseen, lastseen) VALUES ...],
    inside the transaction. *)
Definition InsertExec (i : string) (p : Z) (pr first last : string)
  : M (option error) :=
  e <- driver ;;
  match e with
  | Some err => ret (Some err)
  | None =>
      fun w =>
        match pending w with
        | None => (Some ErrTxDone, w)
        | Some t =>
            if keyed w && existsb (same_key i p pr) t
            then (Some ErrConstraint, w)
            else (None, set_pending (Some (t ++ [mkRow i p pr first last])) w)
        end
  end.

(** [update.Exec(last, ip, port, proto)] for
    [UPDATE scan SET lastseen=? WHERE ip=? AND port=? AND proto=?],
    inside the transaction. *)
Definition UpdateExec (last i : string) (p : Z) (pr : string)
  : M (option error) :=
  e <- driver ;;
  match e with
  | Some err => ret (Some err)
  | None =>
      fun w =>
        match pending w with
        | None => (Some ErrTxDone, w)
        | Some t => (None, set_pending (Some (map (touch i p pr last) t)) w)
        end
  end.

(** The operator [LIKE] of SQLite on text, as the function [likeFunc]
    computes it under the default settings.  A pattern of more than 50000
    bytes is refused ("LIKE or GLOB pattern too complex").  Otherwise the
    pattern and the text are read as C strings, up to their first NUL byte,
    one UTF-8 character at a time: [%] stands for any run of characters,
    [_] for any one character, and any other character for itself, upper
    and lower case ASCII letters being the same. *)
Definition byte (c : ascii) : Z := Z.of_nat (nat_of_ascii c).

(** The bytes of a value up to its first NUL. *)
Fixpoint cstr (z : list ascii) : list ascii :=
  match z with
  | [] => []
  | b :: z' => if byte b =? 0 then [] else b :: cstr z'
  end.

(** The table [sqlite3Utf8Trans1]: the payload bits of a lead byte, which
    is [0xC0] at least. *)
Definition Utf8Trans1 (lead : Z) : Z :=
  if lead <? 0xE0 then lead - 0xC0
  else if lead <? 0xF0 then lead - 0xE0
  else if lead <? 0xF8 then lead - 0xF0
  else if lead <? 0xFC then lead - 0xF8
  else if lead <? 0xFE then lead - 0xFC
  else 0.

Definition isContinuation (b : ascii) : bool := Z.land (byte b) 0xC0 =? 0x80.

(** One more continuation byte, in 32-bit unsigned arithmetic. *)
Definition shift (c : Z) (b : ascii) : Z :=
  (Z.shiftl c 6 + Z.land 0x3F (byte b)) mod 2 ^ 32.

(** What stands in for an overlong form, a surrogate, [0xFFFE] and
    [0xFFFF]. *)
Definition replaced (c : Z) : Z :=
  if (c <? 0x80) || (Z.land c 0xFFFFF800 =? 0xD800)
     || (Z.land c 0xFFFFFFFE =? 0xFFFE)
  then 0xFFFD else c.

(** A character after its lead byte, as [sqlite3Utf8Read] reads it: it
    takes every continuation byte that follows, [c] being the character so
    far, and [rest] reads on from the first byte that is none. *)
Definition multibyte (rest : list ascii -> list Z)
  : Z -> list ascii -> list Z :=
  fix continue (c : Z) (t : list ascii) {struct t} : list Z :=
    match t with
    | [] => [replaced c]
    | b :: t' =>
        if isContinuation b then continue (shift c b) t'
        else replaced c :: rest t
    end.

(** The characters of a C string: a byte below [0xC0] is a character by
    itself, and one from [0xC0] is a lead byte. *)
Fixpoint chars (z : list ascii) : list Z :=
  match z with
  | [] => []
  | b :: z' =>
      if byte b <? 0xC0 then byte b :: chars z'
      else multibyte chars (Utf8Trans1 (byte b)) z'
  end.

(** [sqlite3Tolower] on a byte. *)
Definition lower (c : ascii) : ascii :=
  let n := nat_of_ascii c in
  if (65 <=? n)%nat && (n <=? 90)%nat then ascii_of_nat (n + 32) else c.

(** [sqlite3Tolower] on a character. *)
Definition Tolower (c : Z) : Z :=
  if (65 <=? c) && (c <=? 90) then c + 32 else c.

(** The pattern character [c] stands for the character [c2] of the text. *)
Definition sameChar (c c2 : Z) : bool :=
  (c =? c2) || ((Tolower c =? Tolower c2) && (c <? 0x80) && (c2 <? 0x80)).

(** [patternCompare] for [LIKE] without [ESCAPE]; 37 is [%] and 95 is
    [_]. *)
Fixpoint patternCompare (pat txt : list Z) : bool :=
  match pat with
  | [] => match txt with [] => true | _ => false end
  | c :: pat' =>
      if c =? 37 then
        (fix star (t : list Z) : bool :=
           patternCompare pat' t ||
           match t with [] => false | _ :: t' => star t' end) txt
      else if c =? 95 then
        match txt with [] => false | _ :: txt' => patternCompare pat' txt' end
      else
        match txt with
        | [] => false
        | c2 :: txt' => sameChar c c2 && patternCompare pat' txt'
        end
  end.

(** [txt LIKE pat]; [None] when the pattern is refused. *)
Definition like (pat txt : string) : option bool :=
  if 50000 <? Z.of_nat (String.length pat) then None
  else Some (patternCompare (chars (cstr (list_ascii_of_string pat)))
                            (chars (cstr (list_ascii_of_string txt)))).

(** [ORDER BY port, proto, ip, lastseen]: the integer column by value, the
    text columns byte by byte. *)
Definition row_compare (a b : scan_row) : comparison :=
  lex (port a ?= port b)
   (lex (String.compare (proto a) (proto b))
     (lex (String.compare (ip a) (ip b))
          (String.compare (lastseen a) (lastseen b)))).

Definition row_leb (a b : scan_row) : bool :=
  match row_compare a b with Gt => false | _ => true end.

Fixpoint insert_row (r : scan_row) (l : list scan_row) : list scan_row :=
  match l with
  | [] => [r]
  | x :: t => if row_leb r x then r :: l else x :: insert_row r t
  end.

Definition order_by (l : list scan_row) : list scan_row :=
  fold_right insert_row [] l.

(** The rows that the statement yields: all of them without a clause, and
    with [WHERE ip LIKE ?] those whose [ip] matches the bound pattern.
    When [LIKE] refuses the pattern, the step that examines the first row
    fails: [rows.Next()] returns false there and keeps the error for
    [rows.Err()], so that no row is yielded. *)
Definition selected (clause : option string) (r : scan_row) : bool :=
  match clause with
  | None => true
  | Some pat =>
      match like pat (ip r) with
      | Some b => b
      | None => false
      end
  end.

(** [db.Query(qry, s)] for
    [SELECT ip, port, proto, firstseen, lastseen FROM scan <clause>
     ORDER BY port, proto, ip, lastseen]. *)
Definition Query (clause : option string) : M (list scan_row * option error) :=
  e <- driver ;;
  match e with
  | Some err => ret ([], Some err)
  | None => fun w => ((order_by (filter (selected clause) (committed w)), None), w)
  end.

End Sql.

(** ** [load]: all data for displaying in the browser *)

(** The loop [for rows.Next() { rows.Scan(...); data = append(data, ...) }].
    When [rows.Next()] fails the loop ends as at the last row: the source
    never reads [rows.Err()]. *)
Fixpoint load_rows (rows : list scan_row) (data : list scandata)
  : M (list scandata * option error) :=
  match rows with
  | [] => (driver ;; ret (data, None))
  | r :: rest =>
      (next <- driver ;;
       match next with
       | Some _ => ret (data, None)
       | None =>
           (err <- driver ;;
            match err with
            | Some e => ret ([], Some e)
            | None =>
                let f := parseTime (firstseen r) in
                let l := parseTime (lastseen r) in
                load_rows rest
                  (data ++ [mkScandata (ip r) (port r) (proto r)
                              (firstseen r) (lastseen r) (Equal l f)])
            end)
       end)
  end.

Definition load (s : string) : M (list scandata * option error) :=
  err <- Sql.Open ;;
  match err with
  | Some e => ret ([], Some e)
  | None =>
      let clause :=
        if String.eqb s "" then None else Some ("%" ++ s ++ "%")%string in
      ('(rows, err) <- Sql.Query clause ;;
       match err with
       | Some e => ret ([], Some e)
       | None => load_rows rows []
       end)
  end.

(** ** [save]: the results posted *)

(** How a call of [save] ends: it returns, with an error or [nil], or it
    panics on an index out of range. *)
Inductive outcome : Type :=
| Returned (err : option error)
| Panicked.

(** The loop [for _, r := range results]; [None] when it runs to its end. *)
Fixpoint save_rows (nowString : string) (results : list Posted.result)
  : M (option outcome) :=
  match results with
  | [] => ret None
  | r :: rest =>
      match Posted.Ports r with
      | [] => ret (Some Panicked)
      | p :: _ =>
          (err <- Sql.QueryRowScan (Posted.IP r) (Posted.Port p) (Posted.Proto p) ;;
           match err with
           | Some ErrNoRows =>
               (err <- Sql.InsertExec (Posted.IP r) (Posted.Port p)
                         (Posted.Proto p) nowString nowString ;;
                match err with
                | Some e => (Sql.Rollback ;; ret (Some (Returned (Some e))))
                | None => save_rows nowString rest
                end)
           | Some e => (Sql.Rollback ;; ret (Some (Returned (Some e))))
           | None =>
               (err <- Sql.UpdateExec nowString (Posted.IP r) (Posted.Port p)
                         (Posted.Proto p) ;;
                match err with
                | Some e => (Sql.Rollback ;; ret (Some (Returned (Some e))))
                | None => save_rows nowString rest
                end)
           end)
      end
  end.

(** [save], given the reading [now] of the clock that [time.Now()] takes. *)
Definition save (now : Time) (results : list Posted.result) : M outcome :=
  err <- Sql.Open ;;
  match err with
  | Some e => ret (Returned (Some e))
  | None =>
  (err <- Sql.Begin ;;
  match err with
  | Some e => ret (Returned (Some e))
  | None =>
  (err <- Sql.Prepare ;;
  match err with
  | Some e => (Sql.Rollback ;; ret (Returned (Some e)))
  | None =>
  (err <- Sql.Prepare ;;
  match err with
  | Some e => (Sql.Rollback ;; ret (Returned (Some e)))
  | None =>
  (err <- Sql.Prepare ;;
  match err with
  | Some e => (Sql.Rollback ;; ret (Returned (Some e)))
  | None =>
      let nowString := Format now in
      (o <- save_rows nowString results ;;
       match o with
       | Some out => ret out
       | None => (Sql.Commit ;; ret (Returned None))
       end)
  end) end) end) end) end.

(** ** The handlers *)

Record indexData : Type := mkIndexData
  { Total : Z; Latest : Z; Results : list scandata }.

(** What a handler writes to the client. *)
Inductive reply : Type :=
| Text (status : Z) (body : error)
| Render (status : Z) (name : string) (data : indexData)
| JSON (status : Z) (body : list string).

(** The first loop of [index]: the latest [LastSeen], from the zero time. *)
Definition latestOf (results : list scandata) : Time :=
  fold_left
    (fun latest r =>
       let last := parseTime (LastSeen r) in
       if After last latest then last else latest)
    results zeroTime.

(** The second loop of [index]: [data.Latest++] for each row of that time. *)
Definition countLatest (latest : Time) (results : list scandata) : Z :=
  fold_left
    (fun n r =>
       let last := parseTime (LastSeen r) in
       if Equal last latest then n + 1 else n)
    results 0.

(** Handler for [GET /]; [ipq] is the query parameter [ip].  After a failed
    [load] the handler writes the error and goes on to render. *)
Definition index (ipq : string) : M (list reply) :=
  '(results, err) <- load ipq ;;
  let failed :=
    match err with Some e => [Text 500 e] | None => [] end in
  let latest := latestOf results in
  let data :=
    mkIndexData (Z.of_nat (List.length results))
                (countLatest latest results) results in
  ret (failed ++ [Render 200 "index" data]).

(** Handler for [GET /ips.json]. *)
Definition ips : M (list reply) :=
  '(data, err) <- load "" ;;
  let failed :=
    match err with Some e => [Text 500 e] | None => [] end in
  let ips := fold_left (fun acc r => acc ++ [IP r]) data [] in
  ret (failed ++ [JSON 200 ips]).

(** A store in which no call fails. *)
Definition reliable (w : world) : Prop := forall k, fault w k = None.

Definition no_fault : nat -> option string := fun _ => None.

(** The store before anything was posted. *)
Definition empty_world (k : bool) : world := mkWorld k [] None no_fault 0.

Definition tcp (i : string) (p : Z) : Posted.result :=
  Posted.mkResult i
    [Posted.mkPort p "tcp" "open" (Posted.mkService "" "")].


(** ** Definitions used to state and check the facts below *)

(** A comparison that is a total order on [A]. *)
Record ordering {A : Type} (cmp : A -> A -> comparison) : Prop := mkOrdering
  { cmp_eq : forall x y, cmp x y = Eq <-> x = y;
    cmp_opp : forall x y, cmp y x = CompOpp (cmp x y);
    cmp_lt_trans : forall x y z, cmp x y = Lt -> cmp y z = Lt -> cmp x z = Lt }.

Arguments cmp_eq {A cmp} _ x y.
Arguments cmp_opp {A cmp} _ x y.
Arguments cmp_lt_trans {A cmp} _ x y z.

Definition cmp_pair {A B : Type} (ca : A -> A -> comparison)
    (cb : B -> B -> comparison) (x y : A * B) : comparison :=
  lex (ca (fst x) (fst y)) (cb (snd x) (snd y)).

Definition fields (t : Time) : Z * (Z * (Z * (Z * Z))) :=
  (Year t, (Month t, (Day t, (Hour t, Minute t)))).

Definition fields_compare :=
  cmp_pair Z.compare (cmp_pair Z.compare (cmp_pair Z.compare
    (cmp_pair Z.compare Z.compare))).

Module RoundTripDefs.
Import Digits Parse.

(** [appendInt n 2] is two digits that read back as [n]. *)
Definition two_ok (n : Z) : bool :=
  match appendInt n 2 with
  | [c1; c2] =>
      isDigit c1 && isDigit c2 && (digitVal c1 * 10 + digitVal c2 =? n)
  | _ => false
  end.

(** [appendInt y 4] is four digits that read back as [y]. *)
Definition four_ok (y : Z) : bool :=
  match appendInt y 4 with
  | [a; b; c; d] =>
      isDigit a && isDigit b && isDigit c && isDigit d &&
      (((digitVal a * 10 + digitVal b) * 10 + digitVal c) * 10 + digitVal d
       =? y)
  | _ => false
  end.

Fixpoint count_from (z : Z) (n : nat) : list Z :=
  match n with
  | O => []
  | S n' => z :: count_from (z + 1) n'
  end.

Definition upto (n : Z) : list Z := count_from 0 (Z.to_nat n).

Ltac step := cbn [Parse.bind guard skip Ascii.eqb Bool.eqb cutspace].

End RoundTripDefs.

(** The key of [ORDER BY port, proto, ip, lastseen]. *)
Definition row_key (r : scan_row) : Z * (string * (string * string)) :=
  (port r, (proto r, (ip r, lastseen r))).

Definition key_compare :=
  cmp_pair Z.compare (cmp_pair String.compare
    (cmp_pair String.compare String.compare)).

(** [a] comes no later than [b] in that order. *)
Definition row_le (a b : scan_row) : Prop := Sql.row_compare a b <> Gt.

(** The text [a] comes before [b], byte by byte. *)
Definition text_lt (a b : string) : Prop := String.compare a b = Lt.

(** Ascending order of [(port, proto, ip, lastseen)], column by column:
    [a] may come before [b] in the report. *)
Definition report_le (a b : scan_row) : Prop :=
  port a < port b \/
  port a = port b /\
  (text_lt (proto a) (proto b) \/
   proto a = proto b /\
   (text_lt (ip a) (ip b) \/
    ip a = ip b /\
    (text_lt (lastseen a) (lastseen b) \/ lastseen a = lastseen b))).

(** The row that [load] appends for a row of the table. *)
Definition display (r : scan_row) : scandata :=
  mkScandata (ip r) (port r) (proto r) (firstseen r) (lastseen r)
    (Equal (parseTime (lastseen r)) (parseTime (firstseen r))).

(** The rows that [load s] selects. *)
Definition matches (s : string) (r : scan_row) : bool :=
  Sql.selected
    (if String.eqb s "" then None else Some ("%" ++ s ++ "%")%string) r.

(** [s] is a prefix of [t], characters being compared after [norm]. *)
Fixpoint prefix_by (norm : ascii -> ascii) (s t : list ascii) : bool :=
  match s, t with
  | [], _ => true
  | _ :: _, [] => false
  | c :: s', d :: t' => Ascii.eqb (norm c) (norm d) && prefix_by norm s' t'
  end.

(** [s] occurs in [t], characters being compared after [norm]. *)
Fixpoint contains_by (norm : ascii -> ascii) (s t : list ascii) : bool :=
  prefix_by norm s t ||
  match t with
  | [] => false
  | _ :: t' => contains_by norm s t'
  end.

(** [t] contains [s] as a substring. *)
Definition contains (s t : string) : bool :=
  contains_by (fun c => c) (list_ascii_of_string s) (list_ascii_of_string t).

(** [t] contains [s] as a substring, ASCII letters in either case. *)
Definition contains_nocase (s t : string) : bool :=
  contains_by Sql.lower (list_ascii_of_string s) (list_ascii_of_string t).

(** A filter without the wildcards of [LIKE]. *)
Definition plain (s : list ascii) : bool :=
  forallb (fun c => negb (Ascii.eqb c "%") && negb (Ascii.eqb c "_")) s.

(** A text of ASCII characters, NUL excluded. *)
Definition ascii_text (s : list ascii) : bool :=
  forallb (fun c => (1 <=? Sql.byte c) && (Sql.byte c <? 128)) s.

(** A byte of a pattern that is a character by itself and stands for
    itself. *)
Definition literal (c : ascii) : Prop :=
  Sql.byte c < 0x80 /\ Sql.byte c <> 37 /\ Sql.byte c <> 95.

(** The text of the given bytes. *)
Definition of_bytes (l : list Z) : string :=
  string_of_list_ascii (map (fun b => ascii_of_nat (Z.to_nat b)) l).

(** The part of a text before its first NUL byte. *)
Definition c_string (s : string) : string :=
  string_of_list_ascii (Sql.cstr (list_ascii_of_string s)).

(** [w'] is [w] after calls that changed neither the table nor the open
    transaction. *)
Definition untouched (w w' : world) : Prop :=
  keyed w' = keyed w /\ committed w' = committed w /\
  pending w' = pending w /\ fault w' = fault w /\
  (calls w <= calls w')%nat.

(** ** What a batch does to the table *)

(** The identity tuple of a row. *)
Definition key (r : scan_row) : string * Z * string := (ip r, port r, proto r).

Definition has_port (e : Posted.result) : bool :=
  match Posted.Ports e with [] => false | _ :: _ => true end.





(** The row [r] has the tuple that [save] reads from the entry [e]: its
    [IP] and the [Port] and [Proto] of its first port. *)
Definition hits (e : Posted.result) (r : scan_row) : bool :=
  match Posted.Ports e with
  | [] => false
  | p :: _ => same_key (Posted.IP e) (Posted.Port p) (Posted.Proto p) r
  end.

(** The tuple of [e] has a record in [tbl]. *)
Definition known (tbl : list scan_row) (e : Posted.result) : bool :=
  existsb (hits e) tbl.

Definition set_last (last : string) (r : scan_row) : scan_row :=
  mkRow (ip r) (port r) (proto r) (firstseen r) last.

(** A stored row after the batch: [lastseen] is the time of the batch when
    an entry has its tuple, and nothing else changes. *)
Definition touched (now : string) (results : list Posted.result)
    (r : scan_row) : scan_row :=
  if existsb (fun e => hits e r) results then set_last now r else r.

Definition fresh_row (now : string) (e : Posted.result) : list scan_row :=
  match Posted.Ports e with
  | [] => []
  | p :: _ => [mkRow (Posted.IP e) (Posted.Port p) (Posted.Proto p) now now]
  end.

(** The rows that the batch adds: one for each entry whose tuple had no
    record in [tbl]. *)
Definition fresh_rows (tbl : list scan_row) (now : string)
    (results : list Posted.result) : list scan_row :=
  flat_map (fun e => if known tbl e then [] else fresh_row now e) results.

(** The table after the whole batch. *)
Definition merged (tbl : list scan_row) (now : string)
    (results : list Posted.result) : list scan_row :=
  map (touched now results) tbl ++ fresh_rows tbl now results.

(** [w'] is [w] but for the open transaction. *)
Definition framed (w w' : world) : Prop :=
  keyed w' = keyed w /\ committed w' = committed w /\
  fault w' = fault w /\ (calls w <= calls w')%nat.

(** No call numbered from [a] up to [b], [b] excluded, fails. *)
Definition quiet (w : world) (a b : nat) : Prop :=
  forall k, (a <= k < b)%nat -> fault w k = None.

(** ** Notions of the report and of the history of the store *)

(** [r] has the latest [LastSeen] among [rows]. *)
Definition latest_in (rows : list scandata) (r : scandata) : Prop :=
  Forall (fun r' => Time_le (parseTime (LastSeen r')) (parseTime (LastSeen r)))
         rows.

(** The stores reached from the empty table by calls of [save] that return
    [nil], the clock never going back; [t] is its latest reading. *)
Inductive ingested : Time -> world -> Prop :=
| ingested_empty t k f n : ingested t (mkWorld k [] None f n)
| ingested_save t now results w w' :
    ingested t w ->
    validTime now -> Time_le t now ->
    save now results w = (Returned None, w') ->
    ingested now w'.


(** A row whose timestamps are as [save] writes them, no later than [t]. *)
Definition stamped (t : Time) (r : scan_row) : Prop :=
  exists f l,
    validTime f /\ validTime l /\
    firstseen r = Format f /\ lastseen r = Format l /\
    Time_le f l /\ Time_le l t.

(** The scenario of the report: one host seen at two minutes. *)
Module Scenario.

Definition minute1 : Time := mkTime 2024 3 9 7 5.
Definition minute2 : Time := mkTime 2024 3 9 7 6.
Definition ssh : Posted.result := tcp "10.0.0.1" 22.
Definition http : Posted.result := tcp "10.0.0.1" 80.
Definition portless : Posted.result := Posted.mkResult "10.0.0.2" [].

(** The store after [ssh] was posted at [minute1] and again at [minute2]. *)
Definition twice (k : bool) : world :=
  snd (save minute2 [ssh] (snd (save minute1 [ssh] (empty_world k)))).

(** The store after one batch with two ports of the same host. *)
Definition two_ports (k : bool) : world :=
  snd (save minute1 [ssh; http] (empty_world k)).

End Scenario.

(** ** [recvResults]: the handler for [POST /results] *)

(** The text [err.Error()] that a handler writes: of an error of the store,
    or of the error of [c.Bind]. *)
Inductive message : Type :=
| OfError (e : error)
| OfBind (msg : string).

(** What [recvResults] writes to the client. *)
Inductive answer : Type :=
| String500 (body : message)     (* c.String(http.StatusInternalServerError, _) *)
| NoContent200.                  (* c.NoContent(http.StatusOK) *)

(** [recvResults], given the reading of the clock and what [c.Bind(res)]
    made of the body: the results, or the message of its error.  [None] is
    the panic of [save], which the handler does not recover. *)
Definition recvResults (now : Time) (bound : list Posted.result + string)
  : M (option answer) :=
  match bound with
  | inr msg => ret (Some (String500 (OfBind msg)))
  | inl res =>
      (o <- save now res ;;
       match o with
       | Returned (Some e) => ret (Some (String500 (OfError e)))
       | Returned None => ret (Some NoContent200)
       | Panicked => ret None
       end)
  end.

(** ** Notions used to state further properties *)

(** What [save] reads of an entry: its [IP] and its first port's [Port] and
    [Proto], if it has a port. *)
Definition first_port (e : Posted.result) : string * option (Z * string) :=
  (Posted.IP e,
   match Posted.Ports e with
   | [] => None
   | p :: _ => Some (Posted.Port p, Posted.Proto p)
   end).

(** The entry [e] names the tuple [(i, p, pr)]. *)
Definition names (i : string) (p : Z) (pr : string) (e : Posted.result) : bool :=
  hits e (mkRow i p pr "" "").

(** A filter made of [%] only. *)
Definition only_percent (s : list ascii) : bool :=
  forallb (fun c => Ascii.eqb c "%") s.

(** Stores for the examples: a table of two records, in a store whose
    [n]-th call fails and no other. *)
Definition two_rows : list scan_row :=
  [mkRow "10.0.0.1" 22 "tcp" "2024-03-09 07:05" "2024-03-09 07:05";
   mkRow "10.0.0.1" 80 "tcp" "2024-03-09 07:05" "2024-03-09 07:05"].

Definition failing_at (n : nat) (k : bool) (tbl : list scan_row) : world :=
  mkWorld k tbl None
    (fun c => if (c =? n)%nat then Some "disk I/O error" else None) 0.

(** A store that holds [tbl] and in which no call fails. *)
Definition stored (k : bool) (tbl : list scan_row) : world :=
  mkWorld k tbl None no_fault 0.
(** * Facts *)

(** ** Lexicographic comparisons *)

Section Comparisons.

Context {A : Type} (cmp : A -> A -> comparison).

Hypothesis O : ordering cmp.

Lemma cmp_refl x : cmp x x = Eq.
Proof. now apply (cmp_eq O). Qed.

Lemma cmp_gt_lt x y : cmp x y = Gt <-> cmp y x = Lt.
Proof. rewrite (cmp_opp O x y). destruct (cmp x y); simpl; intuition congruence. Qed.

Lemma cmp_le_trans x y z : cmp x y <> Gt -> cmp y z <> Gt -> cmp x z <> Gt.
Proof.
  intros Hxy Hyz Hxz. apply cmp_gt_lt in Hxz.
  destruct (cmp x y) eqn:Exy; [ | | congruence ].
  - apply (cmp_eq O) in Exy. subst y. apply cmp_gt_lt in Hxz. congruence.
  - destruct (cmp y z) eqn:Eyz; [ | | congruence ].
    + apply (cmp_eq O) in Eyz. subst z.
      apply cmp_gt_lt in Hxz. congruence.
    + pose proof (cmp_lt_trans O _ _ _ Hxz Exy) as H.
      apply cmp_gt_lt in H. congruence.
Qed.

Lemma cmp_total x y : cmp x y <> Gt \/ cmp y x <> Gt.
Proof.
  destruct (cmp x y) eqn:E; [ left | left | right ]; try congruence.
  apply cmp_gt_lt in E. congruence.
Qed.

End Comparisons.

Section Lex.

Context {A B : Type} (ca : A -> A -> comparison) (cb : B -> B -> comparison).

Lemma cmp_pair_ordering :
  ordering ca -> ordering cb -> ordering (cmp_pair ca cb).
Proof.
  intros Oa Ob. split.
  - intros [a b] [a' b']. unfold cmp_pair, lex. simpl.
    destruct (ca a a') eqn:E.
    + apply (cmp_eq Oa) in E. subst a'. rewrite (cmp_eq Ob).
      split; [ now intros -> | now inversion 1 ].
    + split; [ discriminate | ].
      inversion 1; subst. rewrite (cmp_refl _ Oa) in E. discriminate.
    + split; [ discriminate | ].
      inversion 1; subst. rewrite (cmp_refl _ Oa) in E. discriminate.
  - intros [a b] [a' b']. unfold cmp_pair, lex. simpl.
    rewrite (cmp_opp Oa a a'), (cmp_opp Ob b b').
    now destruct (ca a a').
  - intros [a b] [a' b'] [a'' b'']. unfold cmp_pair, lex. simpl.
    destruct (ca a a') eqn:E1; try discriminate.
    + apply (cmp_eq Oa) in E1. subst a'.
      destruct (ca a a''); try discriminate; auto.
      apply (cmp_lt_trans Ob).
    + intros _. destruct (ca a' a'') eqn:E2; try discriminate.
      * apply (cmp_eq Oa) in E2. subst a''. now rewrite E1.
      * now rewrite (cmp_lt_trans Oa _ _ _ E1 E2).
Qed.

End Lex.

Lemma Z_ordering : ordering Z.compare.
Proof.
  split.
  - apply Z.compare_eq_iff.
  - intros x y. apply Z.compare_antisym.
  - intros x y z. rewrite !Z.compare_lt_iff. lia.
Qed.

Lemma string_lt_trans x : forall y z,
  String.compare x y = Lt -> String.compare y z = Lt -> String.compare x z = Lt.
Proof.
  induction x as [|a x IH]; intros [|b y] [|c z]; simpl; try congruence.
  destruct (Ascii.compare a b) eqn:E1; try discriminate.
  - apply Ascii.compare_eq_iff in E1. subst b.
    destruct (Ascii.compare a c); try congruence. apply IH.
  - intros _. destruct (Ascii.compare b c) eqn:E2; try discriminate.
    + apply Ascii.compare_eq_iff in E2. subst c. now rewrite E1.
    + intros _.
      assert (H : Ascii.compare a c = Lt)
        by (unfold Ascii.compare in *; rewrite N.compare_lt_iff in *; lia).
      now rewrite H.
Qed.

Lemma string_ordering : ordering String.compare.
Proof.
  split.
  - intros x y. split; [ apply String.compare_eq_iff | intros -> ].
    pose proof (String.compare_antisym y y) as H.
    destruct (String.compare y y); simpl in H; congruence.
  - intros x y. apply String.compare_antisym.
  - apply string_lt_trans.
Qed.

(** ** Times *)

Example Format_ex :
  Format (mkTime 2024 3 9 7 5) = "2024-03-09 07:05".
Proof. reflexivity. Qed.

Example parseTime_ex :
  parseTime "2024-03-09 07:05" = mkTime 2024 3 9 7 5 /\
  parseTime "2024-03-09   7:05" = mkTime 2024 3 9 7 5 /\
  parseTime "2023-02-29 07:05" = zeroTime /\
  parseTime "soon" = zeroTime.
Proof. repeat split; reflexivity. Qed.


Lemma fields_inj t u : fields t = fields u -> t = u.
Proof. destruct t, u. unfold fields. simpl. now inversion 1. Qed.

Lemma Time_compare_fields t u :
  Time_compare t u = fields_compare (fields t) (fields u).
Proof. reflexivity. Qed.

Lemma Time_ordering : ordering Time_compare.
Proof.
  assert (O : ordering fields_compare)
    by (repeat apply cmp_pair_ordering; apply Z_ordering).
  split.
  - intros t u. rewrite Time_compare_fields, (cmp_eq O).
    split; [ apply fields_inj | now intros -> ].
  - intros t u. rewrite !Time_compare_fields. apply (cmp_opp O).
  - intros t u v. rewrite !Time_compare_fields. apply (cmp_lt_trans O).
Qed.

Lemma Equal_eq t u : Equal t u = true <-> t = u.
Proof.
  unfold Equal. rewrite <- (cmp_eq Time_ordering).
  destruct (Time_compare t u); intuition congruence.
Qed.

Lemma Equal_refl t : Equal t t = true.
Proof. now apply Equal_eq. Qed.

Lemma After_iff t u : After t u = true <-> Time_compare u t = Lt.
Proof.
  unfold After. rewrite <- (cmp_gt_lt _ Time_ordering).
  destruct (Time_compare t u); intuition congruence.
Qed.

Lemma Time_le_refl t : Time_le t t.
Proof. unfold Time_le. now rewrite (cmp_refl _ Time_ordering). Qed.

Lemma Time_le_trans t u v : Time_le t u -> Time_le u v -> Time_le t v.
Proof. apply (cmp_le_trans _ Time_ordering). Qed.

Lemma Time_lt_le t u : Time_compare t u = Lt -> Time_le t u.
Proof. unfold Time_le. congruence. Qed.

Lemma not_After_le t u : After t u = false -> Time_le t u.
Proof. unfold After, Time_le. destruct (Time_compare t u); congruence. Qed.

Lemma After_le t u : After t u = true -> Time_le u t.
Proof. rewrite After_iff. apply Time_lt_le. Qed.

(** ** Reading back what [Format] prints *)

Module RoundTrip.
Import Digits Parse RoundTripDefs.

Lemma in_count_from z n : forall a,
  a <= z < a + Z.of_nat n -> In z (count_from a n).
Proof.
  induction n as [|n IH]; intros a H; [ lia | ].
  simpl. destruct (Z.eq_dec a z); [ now left | right ].
  apply IH. lia.
Qed.

Lemma upto_forallb (P : Z -> bool) n :
  forallb P (upto n) = true -> forall z, 0 <= z < n -> P z = true.
Proof.
  intros H z Hz. rewrite forallb_forall in H. apply H.
  unfold upto. apply in_count_from. lia.
Qed.

Lemma two_ok_all n : 0 <= n <= 99 -> two_ok n = true.
Proof.
  intros H. apply (upto_forallb two_ok 100); [ now vm_compute | lia ].
Qed.

Lemma four_ok_all y : 0 <= y <= 9999 -> four_ok y = true.
Proof.
  intros H. apply (upto_forallb four_ok 10000); [ now vm_compute | lia ].
Qed.

Lemma isDigit_not_space c : isDigit c = true -> Ascii.eqb c " " = false.
Proof.
  destruct c as [[] [] [] [] [] [] [] []]; try reflexivity; discriminate.
Qed.

Lemma getnum_appendInt n fixed rest :
  0 <= n <= 99 -> getnum (appendInt n 2 ++ rest) fixed = Some (n, rest).
Proof.
  intros H. pose proof (two_ok_all n H) as E. unfold two_ok in E. revert E.
  destruct (appendInt n 2) as [|c1 [|c2 [|]]]; try discriminate.
  intros E. apply andb_prop in E as [E E3]. apply andb_prop in E as [E1 E2].
  apply Z.eqb_eq in E3. simpl. now rewrite E1, E2, E3.
Qed.

Lemma cutspace_appendInt n rest :
  0 <= n <= 99 -> cutspace (appendInt n 2 ++ rest) = appendInt n 2 ++ rest.
Proof.
  intros H. pose proof (two_ok_all n H) as E. unfold two_ok in E. revert E.
  destruct (appendInt n 2) as [|c1 [|c2 [|]]]; try discriminate.
  intros E. apply andb_prop in E as [E _]. apply andb_prop in E as [E1 _].
  simpl. now rewrite (isDigit_not_space _ E1).
Qed.

Lemma getyear_appendInt y rest :
  0 <= y <= 9999 -> getyear (appendInt y 4 ++ rest) = Some (y, rest).
Proof.
  intros H. pose proof (four_ok_all y H) as E. unfold four_ok in E. revert E.
  destruct (appendInt y 4) as [|a [|b [|c [|d [|]]]]]; try discriminate.
  intros E. apply andb_prop in E as [E E5]. apply Z.eqb_eq in E5.
  simpl. now rewrite E, E5.
Qed.

Lemma daysIn_le m y : daysIn m y <= 31.
Proof.
  unfold daysIn.
  repeat match goal with |- context [if ?b then _ else _] => destruct b end;
    lia.
Qed.

Lemma parse_Format t :
  validTime t -> parse (list_ascii_of_string (Format t)) = Some t.
Proof.
  intros (Hy & Hm & Hd & Hh & Hmi).
  pose proof (daysIn_le (Month t) (Year t)) as Hd31.
  unfold Format. rewrite list_ascii_of_string_of_list_ascii.
  unfold parse.
  rewrite getyear_appendInt by lia. step.
  rewrite getnum_appendInt by lia. step.
  replace ((0 <? Month t) && (Month t <=? 12)) with true by lia. step.
  rewrite getnum_appendInt by lia. step.
  rewrite cutspace_appendInt by lia. step.
  rewrite getnum_appendInt by lia. step.
  replace (Hour t <? 24) with true by lia. step.
  rewrite <- (app_nil_r (appendInt (Minute t) 2)).
  rewrite getnum_appendInt by lia. step.
  replace (Minute t <? 60) with true by lia. step.
  replace ((1 <=? Day t) && (Day t <=? daysIn (Month t) (Year t))) with true
    by lia.
  step. now destruct t.
Qed.

End RoundTrip.

Lemma parseTime_Format t : validTime t -> parseTime (Format t) = t.
Proof.
  intros H. unfold parseTime. now rewrite RoundTrip.parse_Format.
Qed.

Lemma Format_inj t u : validTime t -> validTime u -> Format t = Format u -> t = u.
Proof.
  intros Ht Hu E.
  rewrite <- (parseTime_Format t Ht), <- (parseTime_Format u Hu).
  now rewrite E.
Qed.

(** ** The operator [LIKE] *)

Example like_ex :
  Sql.like "%0.0%" "10.0.0.1" = Some true /\
  Sql.like "%0.2%" "10.0.0.1" = Some false /\
  Sql.like "%FE80%" "fe80::1" = Some true /\
  Sql.like "%1_2%" "10.0.0.102" = Some true /\
  Sql.like "%_%" "" = Some false /\
  Sql.like "%%%" "" = Some true.
Proof. repeat split; reflexivity. Qed.

(** Beyond plain ASCII text: a NUL byte ends the pattern and the text,
    and [_] or a character of the pattern stands for a whole UTF-8
    character of the text. *)
Example like_bytes_ex :
  Sql.like (of_bytes [37; 49; 0; 122; 122; 122; 37]) "10.0.0.1" = Some true /\
  Sql.like "%b%" (of_bytes [120; 0; 98]) = Some false /\
  Sql.like "%a_b%" (of_bytes [97; 195; 169; 98]) = Some true /\
  Sql.like (of_bytes [37; 195; 169; 37]) (of_bytes [195; 169; 128]) =
    Some false /\
  Sql.like (of_bytes [37; 128; 37]) (of_bytes [194; 128]) = Some true.
Proof. repeat split; vm_compute; reflexivity. Qed.

Section Like.
Import Sql.

Lemma pattern_star q t :
  patternCompare (37 :: q) t =
  patternCompare q t ||
  match t with [] => false | _ :: t' => patternCompare (37 :: q) t' end.
Proof. destruct t; reflexivity. Qed.

Lemma pattern_star_iff q t :
  patternCompare (37 :: q) t = true <->
  exists pre rest, t = pre ++ rest /\ patternCompare q rest = true.
Proof.
  induction t as [|a t IH]; rewrite pattern_star, orb_true_iff.
  - split.
    + intros [H | H]; [ now exists [], [] | discriminate ].
    + intros (pre & rest & E & H). symmetry in E.
      apply app_eq_nil in E as [_ ->]. now left.
  - rewrite IH. split.
    + intros [H | (pre & rest & -> & H)].
      * now exists [], (a :: t).
      * now exists (a :: pre), rest.
    + intros ([|b pre] & rest & E & H); simpl in E.
      * left. now rewrite E.
      * right. injection E as _ ->. now exists pre, rest.
Qed.

Lemma pattern_percent t : patternCompare [37] t = true.
Proof. apply pattern_star_iff. exists t, []. now rewrite app_nil_r. Qed.

(** *** Bytes and characters *)

Lemma byte_range c : 0 <= byte c < 256.
Proof.
  unfold byte. pose proof (nat_ascii_bounded c). lia.
Qed.

Lemma byte_inj c d : byte c = byte d -> c = d.
Proof.
  unfold byte. intros H. apply Nat2Z.inj in H.
  rewrite <- (ascii_nat_embedding c), <- (ascii_nat_embedding d). now rewrite H.
Qed.

Lemma byte_lower c : byte (lower c) = Tolower (byte c).
Proof. destruct c as [[] [] [] [] [] [] [] []]; reflexivity. Qed.

Lemma continuation_high b : isContinuation b = true -> 0x80 <= byte b < 0xC0.
Proof.
  destruct b as [[] [] [] [] [] [] [] []]; intros H; vm_compute in H;
    try discriminate H; vm_compute; (split; [ discriminate | reflexivity ]).
Qed.

Lemma replaced_high c : 0x80 <= replaced c.
Proof.
  unfold replaced. destruct (Z.ltb_spec c 0x80); simpl; [ lia | ].
  destruct (_ || _); lia.
Qed.

Lemma chars_cons b z :
  chars (b :: z) =
  if byte b <? 0xC0 then byte b :: chars z
  else multibyte chars (Utf8Trans1 (byte b)) z.
Proof. reflexivity. Qed.

Lemma multibyte_cons c b t :
  multibyte chars c (b :: t) =
  if isContinuation b then multibyte chars (shift c b) t
  else replaced c :: chars (b :: t).
Proof. reflexivity. Qed.

(** A multi-byte character is one character, not an ASCII one, and what
    it takes are bytes from [0x80]. *)
Lemma multibyte_shape t : forall c,
  exists x k,
    multibyte chars c t = x :: chars (skipn k t) /\ 0x80 <= x /\
    Forall (fun b => 0x80 <= byte b) (firstn k t).
Proof.
  induction t as [|b t IH]; intros c.
  - exists (replaced c), 0%nat. simpl. auto using replaced_high.
  - rewrite multibyte_cons. destruct (isContinuation b) eqn:Eb.
    + destruct (IH (shift c b)) as (x & k & E & Hx & Hk).
      exists x, (S k). simpl. repeat split; auto.
      constructor; [ | assumption ]. apply continuation_high in Eb. lia.
    + exists (replaced c), 0%nat. simpl. auto using replaced_high.
Qed.

Lemma chars_ascii z :
  Forall (fun b => byte b < 0x80) z -> chars z = map byte z.
Proof.
  induction 1 as [|b z Hb Hz IH]; [ reflexivity | ].
  rewrite chars_cons. destruct (Z.ltb_spec (byte b) 0xC0); [ | lia ].
  simpl. now rewrite IH.
Qed.

Lemma cstr_no_nul z : Forall (fun b => byte b <> 0) z -> cstr z = z.
Proof.
  induction 1 as [|b z Hb Hz IH]; [ reflexivity | ].
  simpl. destruct (Z.eqb_spec (byte b) 0); [ contradiction | now rewrite IH ].
Qed.

Lemma sameChar_bytes c b :
  byte c < 0x80 -> sameChar (byte c) (byte b) = Ascii.eqb (lower c) (lower b).
Proof.
  intros Hc. unfold sameChar.
  destruct (Ascii.eqb_spec (lower c) (lower b)) as [E | E].
  - assert (Et : Tolower (byte c) = Tolower (byte b))
      by (rewrite <- !byte_lower; now rewrite E).
    rewrite Et, Z.eqb_refl. simpl.
    assert (Hb : byte b < 0x80).
    { unfold Tolower in Et. pose proof (byte_range b).
      destruct ((65 <=? byte c) && (byte c <=? 90)) eqn:E1;
        destruct ((65 <=? byte b) && (byte b <=? 90)) eqn:E2; lia. }
    destruct (Z.ltb_spec (byte c) 0x80); [ | lia ].
    destruct (Z.ltb_spec (byte b) 0x80); [ | lia ].
    apply orb_true_r.
  - assert (Et : Tolower (byte c) <> Tolower (byte b)).
    { rewrite <- !byte_lower. intros H. apply byte_inj in H. contradiction. }
    destruct (Z.eqb_spec (byte c) (byte b)) as [Ecb | _];
      [ now rewrite Ecb in Et | ].
    destruct (Z.eqb_spec (Tolower (byte c)) (Tolower (byte b)));
      [ contradiction | reflexivity ].
Qed.

Lemma sameChar_high c x : c < 0x80 -> 0x80 <= x -> sameChar c x = false.
Proof.
  intros Hc Hx. unfold sameChar.
  destruct (Z.eqb_spec c x); [ lia | ].
  destruct (Z.ltb_spec x 0x80); [ lia | ]. simpl.
  now rewrite andb_false_r.
Qed.

Lemma lower_high b : 0x80 <= byte b -> lower b = b.
Proof.
  intros H. apply byte_inj. rewrite byte_lower. unfold Tolower.
  destruct (Z.leb_spec (byte b) 90); [ lia | ]. now rewrite andb_false_r.
Qed.

Lemma lower_ascii c : byte c < 0x80 -> byte (lower c) < 0x80.
Proof.
  intros H. rewrite byte_lower. unfold Tolower.
  destruct ((65 <=? byte c) && (byte c <=? 90)) eqn:E; [ | assumption ].
  apply andb_prop in E as [_ E]. apply Z.leb_le in E. lia.
Qed.

Lemma eqb_ascii_high c b :
  byte c < 0x80 -> 0x80 <= byte b -> Ascii.eqb (lower c) (lower b) = false.
Proof.
  intros Hc Hb. apply Ascii.eqb_neq. intros E.
  apply lower_ascii in Hc. rewrite E, (lower_high b Hb) in Hc. lia.
Qed.

(** *** A filter of plain ASCII text *)

Lemma literal_plain_ascii s :
  plain s = true -> ascii_text s = true -> Forall literal s.
Proof.
  unfold plain, ascii_text. rewrite !forallb_forall, Forall_forall.
  intros Hp Ha c Hc. specialize (Hp c Hc). specialize (Ha c Hc).
  apply andb_prop in Hp as [H1 H2]. apply andb_prop in Ha as [_ H3].
  apply negb_true_iff, Ascii.eqb_neq in H1, H2. apply Z.ltb_lt in H3.
  repeat split; [ assumption | | ]; intros E.
  - apply H1. now apply byte_inj.
  - apply H2. now apply byte_inj.
Qed.

Lemma pattern_prefix s : Forall literal s -> forall t,
  patternCompare (map byte s ++ [37]) (chars t) = prefix_by lower s t.
Proof.
  induction 1 as [|c s (Hc & H37 & H95) Hs IH]; intros t.
  - simpl. apply pattern_percent.
  - cbn [map app patternCompare].
    destruct (Z.eqb_spec (byte c) 37); [ contradiction | ].
    destruct (Z.eqb_spec (byte c) 95); [ contradiction | ].
    destruct t as [|b t]; [ reflexivity | ].
    rewrite chars_cons. destruct (Z.ltb_spec (byte b) 0xC0).
    + rewrite sameChar_bytes by assumption. simpl. now rewrite IH.
    + destruct (multibyte_shape t (Utf8Trans1 (byte b))) as (x & k & -> & Hx & _).
      rewrite sameChar_high by assumption. simpl.
      rewrite eqb_ascii_high by (try assumption; lia). reflexivity.
Qed.

Lemma contains_by_nil norm t : contains_by norm [] t = true.
Proof. now destruct t. Qed.

Lemma contains_skip s k : Forall literal s -> forall t,
  Forall (fun b => 0x80 <= byte b) (firstn k t) ->
  contains_by lower s (skipn k t) = contains_by lower s t.
Proof.
  intros Hs. destruct s as [|c s]; [ intros; now rewrite !contains_by_nil | ].
  inversion Hs as [|c' s' (Hc & _) _]; subst.
  induction k as [|k IH]; intros [|b t] Hk; try reflexivity.
  simpl in Hk. inversion Hk as [|b' t' Hb Hk']; subst.
  cbn [skipn]. rewrite (IH t Hk'). cbn [contains_by prefix_by].
  now rewrite eqb_ascii_high.
Qed.

Lemma pattern_contains s : Forall literal s -> forall n t,
  (List.length t <= n)%nat ->
  patternCompare (37 :: map byte s ++ [37]) (chars t) = contains_by lower s t.
Proof.
  intros Hs. induction n as [|n IH]; intros t Hn; rewrite pattern_star.
  - destruct t; [ | simpl in Hn; lia ].
    rewrite (pattern_prefix s Hs []). simpl. now rewrite orb_false_r.
  - rewrite (pattern_prefix s Hs t). destruct t as [|b t].
    + simpl. now rewrite orb_false_r.
    + simpl in Hn. cbn [contains_by]. f_equal.
      rewrite chars_cons. destruct (Z.ltb_spec (byte b) 0xC0).
      * apply IH. lia.
      * destruct (multibyte_shape t (Utf8Trans1 (byte b)))
          as (x & k & -> & _ & Hk).
        rewrite IH by (rewrite length_skipn; lia).
        now apply contains_skip.
Qed.

Lemma list_ascii_of_string_app s1 s2 :
  list_ascii_of_string (s1 ++ s2) =
  list_ascii_of_string s1 ++ list_ascii_of_string s2.
Proof. induction s1 as [|c s1 IH]; simpl; [ reflexivity | now rewrite IH ]. Qed.

Lemma length_list_ascii s :
  List.length (list_ascii_of_string s) = String.length s.
Proof. induction s as [|c s IH]; simpl; [ reflexivity | now rewrite IH ]. Qed.

(** The pattern that [load] binds for the filter [s]. *)
Lemma pattern_bound s :
  list_ascii_of_string ("%" ++ s ++ "%") =
  "%"%char :: list_ascii_of_string s ++ ["%"%char].
Proof. simpl. now rewrite list_ascii_of_string_app. Qed.

Lemma pattern_length s :
  Z.of_nat (String.length ("%" ++ s ++ "%")) = Z.of_nat (String.length s) + 2.
Proof.
  rewrite <- !length_list_ascii, pattern_bound. simpl.
  rewrite length_app. simpl. lia.
Qed.

(** With a filter of plain ASCII text, [LIKE '%s%'] is containment in the
    text before its first NUL, up to the case of ASCII letters. *)
Lemma like_contains s txt :
  plain (list_ascii_of_string s) = true ->
  ascii_text (list_ascii_of_string s) = true ->
  Z.of_nat (String.length s) <= 49998 ->
  like ("%" ++ s ++ "%") txt = Some (contains_nocase s (c_string txt)).
Proof.
  intros Hp Ha Hl. unfold like. rewrite pattern_length.
  destruct (Z.ltb_spec 50000 (Z.of_nat (String.length s) + 2)); [ lia | ].
  f_equal. rewrite pattern_bound.
  pose proof (literal_plain_ascii _ Hp Ha) as Hs.
  assert (Hn : Forall (fun b => byte b <> 0)
                 ("%"%char :: list_ascii_of_string s ++ ["%"%char])).
  { constructor; [ discriminate | ]. apply Forall_app. split.
    - unfold ascii_text in Ha. rewrite forallb_forall in Ha.
      apply Forall_forall. intros c Hc. specialize (Ha c Hc).
      apply andb_prop in Ha as [Ha _]. apply Z.leb_le in Ha. lia.
    - constructor; [ discriminate | constructor ]. }
  rewrite (cstr_no_nul _ Hn).
  assert (Hh : Forall (fun b => byte b < 0x80)
                 ("%"%char :: list_ascii_of_string s ++ ["%"%char])).
  { constructor; [ reflexivity | ]. apply Forall_app. split.
    - eapply Forall_impl; [ | exact Hs ]. now intros c (Hc & _).
    - constructor; [ reflexivity | constructor ]. }
  rewrite (chars_ascii _ Hh). cbn [map]. rewrite map_app. cbn [map].
  change (byte "%") with 37.
  rewrite (pattern_contains _ Hs _ _ (le_n _)).
  unfold contains_nocase, c_string.
  now rewrite list_ascii_of_string_of_list_ascii.
Qed.

(** *** The case of letters in the pattern *)

Lemma Tolower_high c : 0x80 <= c -> Tolower c = c.
Proof.
  intros H. unfold Tolower.
  destruct (Z.leb_spec c 90); [ lia | ]. now rewrite andb_false_r.
Qed.

Lemma lower_nul b : (byte (lower b) =? 0) = (byte b =? 0).
Proof. destruct b as [[] [] [] [] [] [] [] []]; reflexivity. Qed.

Lemma lower_lead b : (byte (lower b) <? 0xC0) = (byte b <? 0xC0).
Proof. destruct b as [[] [] [] [] [] [] [] []]; reflexivity. Qed.

Lemma lower_continuation b : isContinuation (lower b) = isContinuation b.
Proof. destruct b as [[] [] [] [] [] [] [] []]; reflexivity. Qed.

Lemma cstr_lower z : cstr (map lower z) = map lower (cstr z).
Proof.
  induction z as [|b z IH]; [ reflexivity | ].
  simpl. rewrite lower_nul. destruct (byte b =? 0); [ reflexivity | ].
  simpl. now rewrite IH.
Qed.

Lemma chars_lower z :
  chars (map lower z) = map Tolower (chars z) /\
  forall c, multibyte chars c (map lower z) =
            map Tolower (multibyte chars c z).
Proof.
  induction z as [|b z [IH1 IH2]].
  - split; [ reflexivity | ]. intros c. simpl.
    now rewrite (Tolower_high _ (replaced_high c)).
  - assert (H1 : chars (map lower (b :: z)) = map Tolower (chars (b :: z))).
    { cbn [map]. rewrite !chars_cons, lower_lead.
      destruct (Z.ltb_spec (byte b) 0xC0).
      - cbn [map]. now rewrite IH1, byte_lower.
      - rewrite lower_high by lia. apply IH2. }
    split; [ exact H1 | ]. intros c.
    change (map lower (b :: z)) with (lower b :: map lower z).
    rewrite !multibyte_cons, lower_continuation.
    destruct (isContinuation b) eqn:Eb.
    + apply continuation_high in Eb. rewrite lower_high by lia. apply IH2.
    + cbn [map]. rewrite (Tolower_high _ (replaced_high c)). f_equal.
      exact H1.
Qed.

Lemma Tolower_wild c c' x :
  x = 37 \/ x = 95 -> Tolower c = Tolower c' -> (c =? x) = (c' =? x).
Proof.
  intros Hx E. unfold Tolower in E.
  destruct ((65 <=? c) && (c <=? 90)) eqn:E1;
    destruct ((65 <=? c') && (c' <=? 90)) eqn:E2;
    try (apply andb_prop in E1 as [E1a E1b]; apply Z.leb_le in E1a, E1b);
    try (apply andb_prop in E2 as [E2a E2b]; apply Z.leb_le in E2a, E2b);
    try (apply andb_false_iff in E1 as [E1 | E1]; apply Z.leb_gt in E1);
    try (apply andb_false_iff in E2 as [E2 | E2]; apply Z.leb_gt in E2);
    destruct (Z.eqb_spec c x); destruct (Z.eqb_spec c' x);
    first [ reflexivity | lia ].
Qed.

Lemma sameChar_fold c c' d :
  Tolower c = Tolower c' -> sameChar c d = sameChar c' d.
Proof.
  intros E. unfold sameChar. rewrite E.
  destruct (Z.eqb_spec c c') as [-> | Hne]; [ reflexivity | ].
  assert (Hc : c < 0x80 /\ c' < 0x80).
  { unfold Tolower in E.
    destruct ((65 <=? c) && (c <=? 90)) eqn:E1;
      destruct ((65 <=? c') && (c' <=? 90)) eqn:E2;
      try (apply andb_prop in E1 as [E1a E1b]; apply Z.leb_le in E1a, E1b);
      try (apply andb_prop in E2 as [E2a E2b]; apply Z.leb_le in E2a, E2b);
      lia. }
  destruct Hc as [Hc Hc'].
  destruct (Z.ltb_spec c 0x80); [ | lia ].
  destruct (Z.ltb_spec c' 0x80); [ | lia ].
  destruct (Z.eqb_spec (Tolower c') (Tolower d)) as [Ed | Ed].
  - destruct (Z.ltb_spec d 0x80); simpl; [ now rewrite !orb_true_r | ].
    rewrite !orb_false_r.
    destruct (Z.eqb_spec c d); destruct (Z.eqb_spec c' d);
      first [ reflexivity | lia ].
  - simpl. rewrite !orb_false_r.
    destruct (Z.eqb_spec c d) as [-> | ?];
      destruct (Z.eqb_spec c' d) as [-> | ?];
      first [ reflexivity | congruence ].
Qed.

(** [LIKE] does not tell a pattern from another that differs in the case
    of ASCII letters only. *)
Lemma pattern_fold p : forall p' t,
  map Tolower p = map Tolower p' -> patternCompare p t = patternCompare p' t.
Proof.
  induction p as [|c p IH]; intros [|c' p'] t E; try discriminate;
    [ reflexivity | ].
  injection E as Ec Ep.
  assert (Hstar : patternCompare (37 :: p) t = patternCompare (37 :: p') t).
  { induction t as [|a t IHt].
    - now rewrite (pattern_star p []), (pattern_star p' []), (IH p' [] Ep).
    - rewrite (pattern_star p (a :: t)), (pattern_star p' (a :: t)).
      cbv beta iota. now rewrite (IH p' (a :: t) Ep), IHt. }
  cbn [patternCompare].
  rewrite <- (Tolower_wild c c' 37 (or_introl eq_refl) Ec).
  rewrite <- (Tolower_wild c c' 95 (or_intror eq_refl) Ec).
  destruct (Z.eqb_spec c 37) as [-> | H1].
  - exact Hstar.
  - destruct (c =? 95).
    + destruct t; [ reflexivity | apply IH, Ep ].
    + destruct t; [ reflexivity | ].
      now rewrite (sameChar_fold c c' _ Ec), (IH p' _ Ep).
Qed.

Lemma like_fold p p' txt :
  map lower (list_ascii_of_string p) = map lower (list_ascii_of_string p') ->
  like p txt = like p' txt.
Proof.
  intros E. unfold like.
  assert (El : String.length p = String.length p').
  { rewrite <- !length_list_ascii.
    rewrite <- (length_map lower (list_ascii_of_string p)), E.
    apply length_map. }
  rewrite El. destruct (50000 <? _); [ reflexivity | ]. f_equal.
  apply pattern_fold.
  rewrite <- !(proj1 (chars_lower _)), <- !cstr_lower. now rewrite E.
Qed.

(** *** A pattern of [%] only *)

Lemma pattern_only_percent n t : patternCompare (repeat 37 (S n)) t = true.
Proof.
  induction n as [|n IH]; [ apply pattern_percent | ].
  change (repeat 37 (S (S n))) with (37 :: repeat 37 (S n)).
  apply pattern_star_iff. exists [], t. split; [ reflexivity | apply IH ].
Qed.

Lemma only_percent_repeat p :
  only_percent p = true -> p = repeat "%"%char (List.length p).
Proof.
  induction p as [|c p IH]; [ reflexivity | ].
  simpl. intros H. apply andb_prop in H as [Hc Hp].
  apply Ascii.eqb_eq in Hc. subst c. now rewrite <- IH.
Qed.

Lemma like_only_percent p txt :
  p <> "" -> only_percent (list_ascii_of_string p) = true ->
  Z.of_nat (String.length p) <= 50000 ->
  like p txt = Some true.
Proof.
  intros Hne Hp Hl. unfold like.
  destruct (Z.ltb_spec 50000 (Z.of_nat (String.length p))); [ lia | ].
  f_equal. apply only_percent_repeat in Hp. rewrite Hp.
  rewrite length_list_ascii.
  destruct (String.length p) as [|n] eqn:En.
  { destruct p; [ contradiction | discriminate ]. }
  assert (Hc : forall m, chars (cstr (repeat "%"%char m)) = repeat 37 m).
  { induction m as [|m IH]; [ reflexivity | ].
    cbn [repeat cstr]. change (byte "%" =? 0) with false. cbv iota.
    rewrite chars_cons. change (byte "%" <? 0xC0) with true. cbv iota.
    now rewrite IH. }
  rewrite Hc. apply pattern_only_percent.
Qed.

(** A pattern of more than 50000 bytes is refused. *)
Lemma like_too_complex s txt :
  49998 < Z.of_nat (String.length s) -> like ("%" ++ s ++ "%") txt = None.
Proof.
  intros H. unfold like. rewrite pattern_length.
  destruct (Z.ltb_spec 50000 (Z.of_nat (String.length s) + 2));
    [ reflexivity | lia ].
Qed.

End Like.

Lemma matches_empty r : matches "" r = true.
Proof. reflexivity. Qed.

Lemma matches_like s r :
  s <> "" ->
  matches s r =
  match Sql.like ("%" ++ s ++ "%") (ip r) with
  | Some b => b
  | None => false
  end.
Proof.
  intros Hs. unfold matches. apply String.eqb_neq in Hs. now rewrite Hs.
Qed.

Lemma matches_plain s r :
  plain (list_ascii_of_string s) = true ->
  ascii_text (list_ascii_of_string s) = true ->
  Z.of_nat (String.length s) <= 49998 ->
  matches s r = contains_nocase s (c_string (ip r)).
Proof.
  intros Hp Ha Hl. destruct (string_dec s "") as [-> | Hne].
  - unfold contains_nocase. simpl. now rewrite contains_by_nil.
  - rewrite matches_like by assumption. now rewrite like_contains.
Qed.

(** ** [ORDER BY] *)

Example order_by_ex :
  map key
    (Sql.order_by
       [mkRow "10.0.0.2" 80 "tcp" "" ""; mkRow "10.0.0.1" 443 "tcp" "" "";
        mkRow "10.0.0.1" 80 "udp" "" ""; mkRow "10.0.0.1" 80 "tcp" "" ""]) =
  [("10.0.0.1", 80, "tcp"); ("10.0.0.2", 80, "tcp");
   ("10.0.0.1", 80, "udp"); ("10.0.0.1", 443, "tcp")].
Proof. reflexivity. Qed.

Lemma key_ordering : ordering key_compare.
Proof.
  repeat apply cmp_pair_ordering;
    first [ apply Z_ordering | apply string_ordering ].
Qed.

Lemma row_compare_key a b :
  Sql.row_compare a b = key_compare (row_key a) (row_key b).
Proof. reflexivity. Qed.

Lemma row_le_trans a b c : row_le a b -> row_le b c -> row_le a c.
Proof.
  unfold row_le. rewrite !row_compare_key. apply (cmp_le_trans _ key_ordering).
Qed.

Lemma row_leb_false a b : Sql.row_leb a b = false -> row_le b a.
Proof.
  unfold Sql.row_leb, row_le. rewrite !row_compare_key.
  destruct (key_compare (row_key a) (row_key b)) eqn:E; try discriminate.
  intros _ H. apply (cmp_gt_lt _ key_ordering) in H. congruence.
Qed.

Lemma row_leb_true a b : Sql.row_leb a b = true -> row_le a b.
Proof.
  unfold Sql.row_leb, row_le. destruct (Sql.row_compare a b); congruence.
Qed.

Lemma insert_row_perm r l : Permutation (Sql.insert_row r l) (r :: l).
Proof.
  induction l as [|x l IH]; simpl; [ reflexivity | ].
  destruct (Sql.row_leb r x); [ reflexivity | ].
  rewrite IH. apply perm_swap.
Qed.

Lemma order_by_perm l : Permutation (Sql.order_by l) l.
Proof.
  induction l as [|x l IH]; simpl; [ reflexivity | ].
  rewrite insert_row_perm. now constructor.
Qed.

Lemma insert_row_sorted r l :
  StronglySorted row_le l -> StronglySorted row_le (Sql.insert_row r l).
Proof.
  induction 1 as [|x l Hl IH Hx]; simpl.
  - repeat constructor.
  - destruct (Sql.row_leb r x) eqn:E.
    + apply row_leb_true in E. constructor; [ now constructor | ].
      constructor; [ assumption | ].
      eapply Forall_impl; [ | exact Hx ].
      intros y Hy. eapply row_le_trans; eassumption.
    + apply row_leb_false in E. constructor; [ assumption | ].
      eapply Permutation_Forall; [ symmetry; apply insert_row_perm | ].
      now constructor.
Qed.

Lemma order_by_sorted l : StronglySorted row_le (Sql.order_by l).
Proof.
  induction l as [|x l IH]; simpl; [ constructor | ].
  now apply insert_row_sorted.
Qed.

(** The order of the rows, column by column. *)
Lemma row_le_report a b : row_le a b -> report_le a b.
Proof.
  unfold row_le, Sql.row_compare, report_le, text_lt, lex.
  destruct (Z.compare_spec (port a) (port b)) as [Ep | Hp | Hp];
    [ | now left | congruence ].
  intros H. right. split; [ exact Ep | ].
  destruct (String.compare (proto a) (proto b)) eqn:E1;
    [ | now left | congruence ].
  right. split; [ now apply String.compare_eq_iff | ].
  destruct (String.compare (ip a) (ip b)) eqn:E2;
    [ | now left | congruence ].
  right. split; [ now apply String.compare_eq_iff | ].
  destruct (String.compare (lastseen a) (lastseen b)) eqn:E3;
    [ | now left | congruence ].
  right. now apply String.compare_eq_iff.
Qed.

Lemma order_by_report l : StronglySorted report_le (Sql.order_by l).
Proof.
  pose proof (order_by_sorted l) as H.
  induction H as [|x t Ht IH Hx]; constructor; [ exact IH | ].
  eapply Forall_impl; [ | exact Hx ]. intros y. apply row_le_report.
Qed.

(** ** Calls into the driver *)


Lemma untouched_trans w1 w2 w3 :
  untouched w1 w2 -> untouched w2 w3 -> untouched w1 w3.
Proof. unfold untouched. intuition (try congruence; lia). Qed.

Lemma reliable_untouched w w' : untouched w w' -> reliable w -> reliable w'.
Proof. intros (_ & _ & _ & E & _) H k. rewrite E. apply H. Qed.

Lemma driver_run w :
  exists w',
    driver w = (option_map ErrDriver (fault w (calls w)), w') /\
    untouched w w' /\ calls w' = S (calls w).
Proof.
  eexists. split; [ reflexivity | ].
  unfold untouched. simpl. repeat split; auto with arith.
Qed.

Lemma driver_reliable w :
  reliable w -> exists w', driver w = (None, w') /\ untouched w w'.
Proof.
  intros H. destruct (driver_run w) as (w' & E & U & _).
  exists w'. split; [ | assumption ]. now rewrite E, H.
Qed.

(** ** [load] *)

Ltac run H := unfold bind in H; cbn [option_map ret] in H.

Lemma load_rows_spec rows : forall data w d e w',
  load_rows rows data w = (d, e, w') ->
  untouched w w' /\
  ((e = None /\ exists k, d = data ++ map display (firstn k rows)) \/
   (d = [] /\ exists m, e = Some (ErrDriver m))) /\
  (reliable w -> e = None /\ d = data ++ map display rows).
Proof.
  induction rows as [|r rows IH]; intros data w d e w' H;
    cbn [load_rows] in H; unfold bind in H.
  - destruct (driver_run w) as (w1 & E1 & U1 & _). rewrite E1 in H.
    injection H as <- <- <-. split; [ assumption | ]. split.
    + left. split; [ reflexivity | ]. exists 0%nat. now rewrite app_nil_r.
    + intros _. now rewrite app_nil_r.
  - destruct (driver_run w) as (w1 & E1 & U1 & _). rewrite E1 in H.
    destruct (fault w (calls w)) as [m1|] eqn:F1; run H.
    + injection H as <- <- <-. split; [ assumption | ]. split.
      * left. split; [ reflexivity | ]. exists 0%nat. now rewrite app_nil_r.
      * intros R. now rewrite R in F1.
    + destruct (driver_run w1) as (w2 & E2 & U2 & _). rewrite E2 in H.
      destruct (fault w1 (calls w1)) as [m2|] eqn:F2; run H.
      * injection H as <- <- <-.
        split; [ eapply untouched_trans; eassumption | ]. split.
        -- right. split; [ reflexivity | now exists m2 ].
        -- intros R. apply (reliable_untouched _ _ U1) in R.
           now rewrite R in F2.
      * apply IH in H as (U3 & Hd & Hr).
        split; [ eauto using untouched_trans | ]. split.
        -- destruct Hd as [(-> & k & ->) | Hd]; [ left | now right ].
           split; [ reflexivity | ]. exists (S k).
           now rewrite <- app_assoc.
        -- intros R. destruct Hr as (-> & ->).
           ++ eauto using reliable_untouched.
           ++ now rewrite <- app_assoc.
Qed.

Lemma load_spec s w d e w' :
  load s w = (d, e, w') ->
  untouched w w' /\
  (exists k,
     d = map display
           (firstn k (Sql.order_by (filter (matches s) (committed w))))) /\
  (e = None \/ exists m, e = Some (ErrDriver m)) /\
  (reliable w ->
   e = None /\
   d = map display (Sql.order_by (filter (matches s) (committed w)))).
Proof.
  unfold load, Sql.Open, Sql.Query, bind. intros H.
  destruct (driver_run w) as (w1 & E1 & U1 & _). rewrite E1 in H.
  destruct (fault w (calls w)) as [m1|] eqn:F1; run H.
  { injection H as <- <- <-. split; [ assumption | ].
    split; [ now exists 0%nat | ]. split; [ right; now exists m1 | ].
    intros R. now rewrite R in F1. }
  destruct (driver_run w1) as (w2 & E2 & U2 & _). rewrite E2 in H.
  destruct (fault w1 (calls w1)) as [m2|] eqn:F2; run H.
  { injection H as <- <- <-.
    split; [ eauto using untouched_trans | ].
    split; [ now exists 0%nat | ]. split; [ right; now exists m2 | ].
    intros R. apply (reliable_untouched _ _ U1) in R. now rewrite R in F2. }
  run H. apply load_rows_spec in H as (U3 & Hd & Hr).
  assert (Ec : committed w2 = committed w)
    by (destruct U1 as (_ & Ec1 & _), U2 as (_ & Ec2 & _); congruence).
  rewrite Ec in *. fold (matches s) in *.
  split; [ eauto using untouched_trans | ]. split; [ | split ].
  - destruct Hd as [(_ & k & ->) | (-> & _)]; [ now exists k | now exists 0%nat ].
  - destruct Hd as [(-> & _) | (_ & m & ->)]; [ now left | right; now exists m ].
  - intros R. apply Hr. eauto using reliable_untouched.
Qed.

(** ** What a batch does to the table *)

Lemma same_key_iff i p pr r : same_key i p pr r = true <-> key r = (i, p, pr).
Proof.
  unfold same_key, key.
  rewrite !andb_true_iff, !String.eqb_eq, Z.eqb_eq.
  split; [ intros [[-> ->] ->]; reflexivity | now inversion 1 ].
Qed.

Lemma existsb_same_key i p pr l :
  existsb (same_key i p pr) l = true <-> In (i, p, pr) (map key l).
Proof.
  rewrite existsb_exists, in_map_iff. split.
  - intros (r & Hr & E). exists r. split; [ now apply same_key_iff | assumption ].
  - intros (r & E & Hr). exists r. split; [ assumption | now apply same_key_iff ].
Qed.

Lemma same_key_set_last i p pr last r :
  same_key i p pr (set_last last r) = same_key i p pr r.
Proof. reflexivity. Qed.


Lemma set_last_same r : set_last (lastseen r) r = r.
Proof. now destruct r. Qed.

Lemma touch_set_last i p pr last r :
  touch i p pr last r = if same_key i p pr r then set_last last r else r.
Proof. reflexivity. Qed.

Lemma key_touched now results r : key (touched now results r) = key r.
Proof. unfold touched. now destruct (existsb _ results). Qed.


Lemma fresh_rows_app tbl now a b :
  fresh_rows tbl now (a ++ b) = fresh_rows tbl now a ++ fresh_rows tbl now b.
Proof. unfold fresh_rows. apply flat_map_app. Qed.

Lemma in_fresh_rows tbl now results r :
  In r (fresh_rows tbl now results) <->
  exists e p ps,
    In e results /\ known tbl e = false /\ Posted.Ports e = p :: ps /\
    r = mkRow (Posted.IP e) (Posted.Port p) (Posted.Proto p) now now.
Proof.
  unfold fresh_rows. rewrite in_flat_map. split.
  - intros (e & He & Hr). destruct (known tbl e) eqn:K; [ contradiction | ].
    unfold fresh_row in Hr. destruct (Posted.Ports e) as [|p ps] eqn:EP;
      [ contradiction | ].
    destruct Hr as [<- | []]. now exists e, p, ps.
  - intros (e & p & ps & He & K & EP & ->). exists e. split; [ assumption | ].
    rewrite K. unfold fresh_row. rewrite EP. now left.
Qed.

Lemma lastseen_fresh tbl now results r :
  In r (fresh_rows tbl now results) -> lastseen r = now /\ firstseen r = now.
Proof.
  intros H. apply in_fresh_rows in H as (e & p & ps & _ & _ & _ & ->). auto.
Qed.

Lemma merged_nil tbl now : merged tbl now [] = tbl.
Proof.
  unfold merged. simpl. rewrite app_nil_r.
  rewrite <- (map_id tbl) at 2. now apply map_ext.
Qed.

Lemma known_false tbl e r : known tbl e = false -> In r tbl -> hits e r = false.
Proof.
  unfold known. intros K Hr.
  destruct (hits e r) eqn:E; [ | reflexivity ].
  assert (existsb (hits e) tbl = true) by (apply existsb_exists; eauto).
  congruence.
Qed.

(** An [UPDATE] for an entry with a record, after the entries [pre]. *)
Lemma merged_update tbl now pre e p ps :
  Posted.Ports e = p :: ps ->
  known tbl e = true ->
  map (touch (Posted.IP e) (Posted.Port p) (Posted.Proto p) now)
      (merged tbl now pre) =
  merged tbl now (pre ++ [e]).
Proof.
  intros EP K. unfold merged. rewrite map_app, map_map. f_equal.
  - apply map_ext. intros r. rewrite touch_set_last. unfold touched.
    rewrite existsb_app. simpl. rewrite orb_false_r.
    assert (Eh : forall x, hits e x =
              same_key (Posted.IP e) (Posted.Port p) (Posted.Proto p) x)
      by (intros x; unfold hits; now rewrite EP).
    rewrite Eh.
    destruct (existsb (fun e0 => hits e0 r) pre); simpl.
    + rewrite same_key_set_last. now destruct (same_key _ _ _ r).
    + reflexivity.
  - rewrite fresh_rows_app. simpl. rewrite K, app_nil_r.
    rewrite <- (map_id (fresh_rows tbl now pre)) at 2.
    apply map_ext_in. intros r Hr. apply lastseen_fresh in Hr as [El _].
    rewrite touch_set_last. destruct (same_key _ _ _ r); [ | reflexivity ].
    rewrite <- El. apply set_last_same.
Qed.

(** An [INSERT] for an entry without a record, after the entries [pre]. *)
Lemma merged_insert tbl now pre e p ps :
  Posted.Ports e = p :: ps ->
  known tbl e = false ->
  merged tbl now pre ++
    [mkRow (Posted.IP e) (Posted.Port p) (Posted.Proto p) now now] =
  merged tbl now (pre ++ [e]).
Proof.
  intros EP K. unfold merged. rewrite fresh_rows_app. simpl.
  rewrite K. unfold fresh_row. rewrite EP. simpl.
  rewrite <- app_assoc. f_equal.
  apply map_ext_in. intros r Hr. unfold touched.
  rewrite existsb_app. simpl. now rewrite (known_false _ _ _ K Hr), !orb_false_r.
Qed.

Lemma keys_touch i p pr last l : map key (map (touch i p pr last) l) = map key l.
Proof.
  rewrite map_map. apply map_ext. intros r. rewrite touch_set_last.
  now destruct (same_key i p pr r).
Qed.

Lemma keys_merged tbl now results :
  map key (merged tbl now results) =
  map key tbl ++ map key (fresh_rows tbl now results).
Proof.
  unfold merged. rewrite map_app, map_map. f_equal.
  apply map_ext. intros r. apply key_touched.
Qed.

(** ** [save] *)

Lemma framed_refl w : framed w w.
Proof. unfold framed. auto. Qed.

Lemma framed_trans w1 w2 w3 : framed w1 w2 -> framed w2 w3 -> framed w1 w3.
Proof. unfold framed. intuition (try congruence; lia). Qed.

Lemma untouched_framed w w' : untouched w w' -> framed w w'.
Proof. unfold untouched, framed. intuition. Qed.

Lemma framed_set_pending p w : framed w (set_pending p w).
Proof. unfold framed. simpl. auto. Qed.

Lemma quiet_empty w a : quiet w a a.
Proof. intros k Hk. lia. Qed.

Lemma quiet_step w w' a b :
  fault w a = None -> fault w' = fault w -> quiet w' (S a) b -> quiet w a b.
Proof.
  intros F E Q k Hk. destruct (Nat.eq_dec k a) as [-> | Hne]; [ assumption | ].
  rewrite <- E. apply Q. lia.
Qed.


Lemma known_eq tbl e p ps :
  Posted.Ports e = p :: ps ->
  known tbl e =
  existsb (same_key (Posted.IP e) (Posted.Port p) (Posted.Proto p)) tbl.
Proof.
  intros EP. unfold known. induction tbl as [|r tbl IH]; simpl; [ reflexivity | ].
  rewrite IH. unfold hits. now rewrite EP.
Qed.

Ltac call H w w1 E U C F :=
  unfold bind in H;
  destruct (driver_run w) as (w1 & E & U & C);
  rewrite E in H;
  destruct (fault w (calls w)) eqn:F;
  cbn [option_map ret] in H.

Lemma save_rows_spec now rest : forall pre w o w',
  pending w = Some (merged (committed w) now pre) ->
  save_rows now rest w = (o, w') ->
  framed w w' /\
  match o with
  | None =>
      pending w' = Some (merged (committed w) now (pre ++ rest)) /\
      quiet w (calls w) (calls w') /\ forallb has_port rest = true /\
      (keyed w = true ->
       NoDup (map key (merged (committed w) now pre)) ->
       NoDup (map key (merged (committed w) now (pre ++ rest))))
  | Some (Returned (Some e)) =>
      pending w' = None /\
      (e = ErrConstraint /\ keyed w = true \/
       exists m, e = ErrDriver m /\ fault w (pred (calls w')) = Some m)
  | Some (Returned None) => False
  | Some Panicked =>
      quiet w (calls w) (calls w') /\ forallb has_port rest = false
  end.
Proof.
  induction rest as [|r rest IH]; intros pre w o w' HP H; cbn [save_rows] in H.
  { injection H as <- <-. split; [ apply framed_refl | ].
    rewrite app_nil_r. auto using quiet_empty. }
  destruct (Posted.Ports r) as [|p ps] eqn:EP.
  { injection H as <- <-. split; [ apply framed_refl | ].
    split; [ apply quiet_empty | ]. simpl. unfold has_port. now rewrite EP. }
  assert (Hr : has_port r = true) by (unfold has_port; now rewrite EP).
  unfold Sql.QueryRowScan in H. call H w w1 E1 U1 C1 F1.
  { (* the lookup fails *)
    unfold Sql.Rollback in H. injection H as <- <-.
    split; [ eapply framed_trans;
             [ apply untouched_framed; eassumption | apply framed_set_pending ] | ].
    split; [ reflexivity | right ]. eexists. split; [ reflexivity | ].
    simpl. now rewrite C1. }
  pose proof U1 as (K1 & T1 & P1 & G1 & _).
  rewrite T1, <- (known_eq _ _ _ _ EP) in H.
  destruct (known (committed w) r) eqn:EK.
  - (* a record exists: UPDATE *)
    unfold Sql.UpdateExec in H. call H w1 w2 E2 U2 C2 F2.
    { unfold Sql.Rollback in H. injection H as <- <-.
      split; [ eapply framed_trans;
               [ apply untouched_framed; eapply untouched_trans; eassumption
               | apply framed_set_pending ] | ].
      split; [ reflexivity | right ]. eexists. split; [ reflexivity | ].
      simpl. rewrite C2. simpl. now rewrite <- G1. }
    pose proof U2 as (K2 & T2 & P2 & G2 & _).
    rewrite P2, P1, HP in H. rewrite (merged_update _ _ _ _ _ _ EP EK) in H.
    apply (IH (pre ++ [r])) in H; [ | simpl; now rewrite T2, T1 ].
    destruct H as (Fr & Ho). simpl in Fr.
    assert (Fr' : framed w w').
    { eapply framed_trans; [ apply untouched_framed; eapply untouched_trans;
                             eassumption | ].
      eapply framed_trans; [ apply framed_set_pending | exact Fr ]. }
    split; [ exact Fr' | ]. simpl in Ho. rewrite T2, T1, <- app_assoc in Ho.
    assert (Q : forall b, quiet w2 (S (S (calls w))) b -> quiet w (calls w) b).
    { intros b Q. apply (quiet_step _ w1 _ _ F1 G1).
      rewrite <- C1. apply (quiet_step _ w2 _ _ F2 G2). now rewrite C1. }
    rewrite C2, C1 in Ho.
    destruct o as [[[e|]|]|].
    + destruct Ho as (Hp & [He | (m & -> & Hm)]); split; auto.
      * left. now rewrite <- K1, <- K2.
      * right. exists m. split; [ reflexivity | ]. now rewrite <- G1, <- G2.
    + assumption.
    + destruct Ho as (Q' & Hf). split; [ now apply Q | ]. simpl. now rewrite Hr.
    + destruct Ho as (Hp & Q' & Hf & Hnd). split; [ assumption | ].
      split; [ now apply Q | ]. split; [ simpl; now rewrite Hr | ].
      intros Hk Hn. apply Hnd; [ congruence | ].
      rewrite <- (merged_update _ _ _ _ _ _ EP EK), keys_touch. exact Hn.
  - (* no record: INSERT *)
    unfold Sql.InsertExec in H. call H w1 w2 E2 U2 C2 F2.
    { unfold Sql.Rollback in H. injection H as <- <-.
      split; [ eapply framed_trans;
               [ apply untouched_framed; eapply untouched_trans; eassumption
               | apply framed_set_pending ] | ].
      split; [ reflexivity | right ]. eexists. split; [ reflexivity | ].
      simpl. rewrite C2. simpl. now rewrite <- G1. }
    pose proof U2 as (K2 & T2 & P2 & G2 & _).
    rewrite P2, P1, HP in H.
    destruct (keyed w2 && existsb _ (merged (committed w) now pre)) eqn:EC;
      cbn [option_map ret] in H.
    { (* the tuple is already in the transaction *)
      unfold Sql.Rollback in H. injection H as <- <-.
      split; [ eapply framed_trans;
               [ apply untouched_framed; eapply untouched_trans; eassumption
               | apply framed_set_pending ] | ].
      split; [ reflexivity | left ]. split; [ reflexivity | ].
      apply andb_prop in EC as [EC _]. now rewrite <- K1, <- K2. }
    rewrite (merged_insert _ _ _ _ _ _ EP EK) in H.
    apply (IH (pre ++ [r])) in H; [ | simpl; now rewrite T2, T1 ].
    destruct H as (Fr & Ho). simpl in Fr.
    assert (Fr' : framed w w').
    { eapply framed_trans; [ apply untouched_framed; eapply untouched_trans;
                             eassumption | ].
      eapply framed_trans; [ apply framed_set_pending | exact Fr ]. }
    split; [ exact Fr' | ]. simpl in Ho. rewrite T2, T1, <- app_assoc in Ho.
    assert (Q : forall b, quiet w2 (S (S (calls w))) b -> quiet w (calls w) b).
    { intros b Q. apply (quiet_step _ w1 _ _ F1 G1).
      rewrite <- C1. apply (quiet_step _ w2 _ _ F2 G2). now rewrite C1. }
    rewrite C2, C1 in Ho.
    destruct o as [[[e|]|]|].
    + destruct Ho as (Hp & [He | (m & -> & Hm)]); split; auto.
      * left. now rewrite <- K1, <- K2.
      * right. exists m. split; [ reflexivity | ]. now rewrite <- G1, <- G2.
    + assumption.
    + destruct Ho as (Q' & Hf). split; [ now apply Q | ]. simpl. now rewrite Hr.
    + destruct Ho as (Hp & Q' & Hf & Hnd). split; [ assumption | ].
      split; [ now apply Q | ]. split; [ simpl; now rewrite Hr | ].
      intros Hk Hn. apply Hnd; [ congruence | ].
      rewrite <- (merged_insert _ _ _ _ _ _ EP EK), map_app.
      apply NoDup_app; [ exact Hn | repeat constructor; intros [] | ].
      intros a Ha [<- | []].
      apply (proj2 (existsb_same_key (Posted.IP r) (Posted.Port p)
                      (Posted.Proto p) _)) in Ha.
      rewrite <- K1, <- K2 in Hk. rewrite Hk, Ha in EC. discriminate.
Qed.

Lemma failed_call w wk w' m :
  framed w wk ->
  fault wk (calls wk) = Some m ->
  framed wk w' -> calls w' = S (calls wk) ->
  keyed w' = keyed w /\ fault w' = fault w /\ (calls w <= calls w')%nat /\
  committed w' = committed w /\
  exists m', ErrDriver m = ErrDriver m' /\ fault w (pred (calls w')) = Some m'.
Proof.
  intros (K & T & G & L) F (K' & T' & G' & L') C.
  repeat split; try congruence; try lia.
  exists m. split; [ reflexivity | ]. rewrite C. simpl. congruence.
Qed.

Lemma save_spec now results w o w' :
  save now results w = (o, w') ->
  keyed w' = keyed w /\ fault w' = fault w /\ (calls w <= calls w')%nat /\
  match o with
  | Returned (Some e) =>
      committed w' = committed w /\ (pending w = None -> pending w' = None) /\
      (e = ErrConstraint /\ keyed w = true \/
       exists m, e = ErrDriver m /\ fault w (pred (calls w')) = Some m)
  | Returned None =>
      pending w' = None /\
      quiet w (calls w) (pred (calls w')) /\
      forallb has_port results = true /\
      committed w' =
        match fault w (pred (calls w')) with
        | None => merged (committed w) (Format now) results
        | Some _ => committed w
        end /\
      (keyed w = true -> NoDup (map key (committed w)) ->
       NoDup (map key (committed w')))
  | Panicked =>
      committed w' = committed w /\
      quiet w (calls w) (calls w') /\
      forallb has_port results = false
  end.
Proof.
  unfold save, Sql.Open, Sql.Begin, Sql.Prepare. intros H.
  call H w w1 E1 U1 C1 F1.
  { injection H as <- <-.
    destruct (failed_call w w w1 _ (framed_refl w) F1
                (untouched_framed _ _ U1) C1) as (K & G & L & T & Hm).
    destruct U1 as (_ & _ & P & _). repeat split; auto. congruence. }
  call H w1 w2 E2 U2 C2 F2.
  { injection H as <- <-.
    destruct (failed_call w w1 w2 _ (untouched_framed _ _ U1) F2
                (untouched_framed _ _ U2) C2) as (K & G & L & T & Hm).
    destruct (untouched_trans _ _ _ U1 U2) as (_ & _ & P & _).
    repeat split; auto. congruence. }
  pose proof (untouched_trans _ _ _ U1 U2) as U12.
  set (w2' := set_pending (Some (committed w2)) w2) in H.
  assert (Fr2 : framed w w2').
  { eapply framed_trans; [ apply untouched_framed; exact U12 | ].
    apply framed_set_pending. }
  assert (C2' : calls w2' = S (S (calls w))) by (simpl; now rewrite C2, C1).
  call H w2' w3 E3 U3 C3 F3.
  { unfold Sql.Rollback in H. injection H as <- <-.
    destruct (failed_call w w2' (set_pending None w3) _ Fr2 F3)
      as (K & G & L & T & Hm);
      [ eapply framed_trans;
        [ apply untouched_framed; exact U3 | apply framed_set_pending ]
      | exact C3 | ].
    repeat split; auto. }
  pose proof (framed_trans _ _ _ Fr2 (untouched_framed _ _ U3)) as Fr3.
  call H w3 w4 E4 U4 C4 F4.
  { unfold Sql.Rollback in H. injection H as <- <-.
    destruct (failed_call w w3 (set_pending None w4) _ Fr3 F4)
      as (K & G & L & T & Hm);
      [ eapply framed_trans;
        [ apply untouched_framed; exact U4 | apply framed_set_pending ]
      | exact C4 | ].
    repeat split; auto. }
  pose proof (framed_trans _ _ _ Fr3 (untouched_framed _ _ U4)) as Fr4.
  call H w4 w5 E5 U5 C5 F5.
  { unfold Sql.Rollback in H. injection H as <- <-.
    destruct (failed_call w w4 (set_pending None w5) _ Fr4 F5)
      as (K & G & L & T & Hm);
      [ eapply framed_trans;
        [ apply untouched_framed; exact U5 | apply framed_set_pending ]
      | exact C5 | ].
    repeat split; auto. }
  pose proof (untouched_trans _ _ _ U3 (untouched_trans _ _ _ U4 U5)) as U35.
  pose proof (framed_trans _ _ _ Fr2 (untouched_framed _ _ U35)) as Fr5.
  pose proof Fr5 as (K5 & T5 & G5 & L5).
  assert (P5 : pending w5 = Some (merged (committed w5) (Format now) [])).
  { destruct U35 as (_ & T & P & _). rewrite P, merged_nil, T. simpl.
    destruct U12 as (_ & T' & _). reflexivity. }
  assert (C5' : calls w5 = (5 + calls w)%nat)
    by (rewrite C5, C4, C3, C2'; reflexivity).
  assert (Q5 : quiet w (calls w) (calls w5)).
  { rewrite C5'. intros k Hk.
    assert (Hc : k = calls w \/ k = calls w1 \/ k = calls w2' \/
                 k = calls w3 \/ k = calls w4) by lia.
    destruct U1 as (_ & _ & _ & G1 & _).
    pose proof Fr2 as (_ & _ & G2 & _).
    pose proof Fr3 as (_ & _ & G3 & _).
    pose proof Fr4 as (_ & _ & G4 & _).
    destruct Hc as [-> | [-> | [-> | [-> | ->]]]]; congruence. }
  destruct (save_rows (Format now) results w5) as [o5 w6] eqn:EL.
  apply (save_rows_spec _ _ []) in EL; [ | exact P5 ].
  destruct EL as (Fr6 & Ho). simpl in Ho.
  pose proof (framed_trans _ _ _ Fr5 Fr6) as Fr.
  pose proof Fr as (K6 & T6 & G6 & L6).
  pose proof Fr6 as (_ & _ & G56 & _).
  assert (Qj : forall b, quiet w5 (calls w5) b -> quiet w (calls w) b).
  { intros b Q k Hk. destruct (Nat.lt_ge_cases k (calls w5)).
    - apply Q5. lia.
    - rewrite <- G5. apply Q. lia. }
  destruct o5 as [[[e|]|]|]; cbn [ret] in H.
  - injection H as <- <-. destruct Ho as (Hp & He). repeat split; auto.
    destruct He as [(-> & Hk) | (m & -> & Hm)]; [ left | right ].
    + split; [ reflexivity | congruence ].
    + exists m. split; [ reflexivity | congruence ].
  - contradiction.
  - injection H as <- <-. destruct Ho as (Q & Hf). repeat split; auto.
  - destruct Ho as (Hp & Q & Hf & Hnd). rewrite T5, merged_nil in Hnd.
    unfold Sql.Commit in H.
    call H w6 w7 E7 U7 C7 F7.
    + injection H as <- <-. pose proof U7 as (K7 & T7 & P7 & G7 & L7).
      simpl. rewrite C7. simpl. rewrite <- G6, F7.
      repeat split; try congruence; try lia. now apply Qj.
    + pose proof U7 as (K7 & T7 & P7 & G7 & L7).
      rewrite P7, Hp in H. injection H as <- <-.
      simpl. rewrite C7. simpl. rewrite <- G6, F7, T5.
      repeat split; try congruence; try lia; [ now apply Qj | ].
      intros Hk Hn. apply Hnd; congruence.
Qed.

(** When no call fails, all entries carry a port and no two of the entries
    without a record share a tuple in a keyed table, the loop runs through
    [rest]. *)
Lemma save_rows_reliable now rest : forall pre tail w,
  reliable w ->
  pending w = Some (merged (committed w) now pre) ->
  forallb has_port rest = true ->
  keyed w = false \/
    NoDup (map key (fresh_rows (committed w) now (pre ++ rest))) ->
  exists w1,
    save_rows now (rest ++ tail) w = save_rows now tail w1 /\
    framed w w1 /\ reliable w1 /\
    pending w1 = Some (merged (committed w) now (pre ++ rest)).
Proof.
  induction rest as [|r rest IH]; intros pre tail w R HP Hports Hk.
  { exists w. rewrite app_nil_r. auto using framed_refl. }
  simpl in Hports. apply andb_prop in Hports as [Hr Hports].
  destruct (Posted.Ports r) as [|p ps] eqn:EP;
    [ unfold has_port in Hr; rewrite EP in Hr; discriminate | ].
  cbn [app save_rows]. rewrite EP.
  unfold Sql.QueryRowScan, bind.
  destruct (driver_reliable w R) as (w1 & E1 & U1). rewrite E1.
  pose proof U1 as (K1 & T1 & P1 & G1 & _).
  pose proof (reliable_untouched _ _ U1 R) as R1.
  cbv beta iota zeta. rewrite T1, <- (known_eq _ _ _ _ EP).
  assert (Step : forall w3,
            framed w w3 -> reliable w3 ->
            pending w3 = Some (merged (committed w) now (pre ++ [r])) ->
            exists w',
              save_rows now (rest ++ tail) w3 = save_rows now tail w' /\
              framed w w' /\ reliable w' /\
              pending w' = Some (merged (committed w) now (pre ++ r :: rest))).
  { intros w3 (K3 & T3 & G3 & L3) R3 P3.
    destruct (IH (pre ++ [r]) tail w3) as (w' & E & Fr & R' & P'); auto.
    - now rewrite T3.
    - rewrite K3, T3, <- app_assoc. exact Hk.
    - rewrite T3, <- app_assoc in P'. exists w'.
      split; [ exact E | ]. split; [ | split; assumption ].
      eapply framed_trans; [ | exact Fr ]. unfold framed. auto. }
  destruct (known (committed w) r) eqn:EK.
  - unfold Sql.UpdateExec, bind.
    destruct (driver_reliable w1 R1) as (w2 & E2 & U2). rewrite E2.
    pose proof U2 as (K2 & T2 & P2 & G2 & _).
    cbv beta iota zeta. rewrite P2, P1, HP.
    rewrite (merged_update _ _ _ _ _ _ EP EK).
    apply Step; [ | | reflexivity ].
    + eapply framed_trans; [ | apply framed_set_pending ].
      apply untouched_framed. eapply untouched_trans; eassumption.
    + intros k. simpl. rewrite G2. apply R1.
  - unfold Sql.InsertExec, bind.
    destruct (driver_reliable w1 R1) as (w2 & E2 & U2). rewrite E2.
    pose proof U2 as (K2 & T2 & P2 & G2 & _).
    cbv beta iota zeta. rewrite P2, P1, HP.
    assert (EC : keyed w2 &&
                 existsb (same_key (Posted.IP r) (Posted.Port p) (Posted.Proto p))
                   (merged (committed w) now pre) = false).
    { rewrite K2, K1. destruct Hk as [-> | Hnd]; [ reflexivity | ].
      apply andb_false_intro2. apply not_true_is_false. intros Hin.
      apply existsb_same_key in Hin. rewrite keys_merged in Hin.
      apply in_app_or in Hin as [Hin | Hin].
      - apply existsb_same_key in Hin.
        rewrite <- (known_eq _ _ _ _ EP) in Hin. congruence.
      - rewrite fresh_rows_app, map_app in Hnd. simpl in Hnd.
        rewrite EK in Hnd. unfold fresh_row in Hnd. rewrite EP in Hnd.
        simpl in Hnd. apply NoDup_remove_2 in Hnd. apply Hnd.
        apply in_or_app. now left. }
    rewrite EC. rewrite (merged_insert _ _ _ _ _ _ EP EK).
    apply Step; [ | | reflexivity ].
    + eapply framed_trans; [ | apply framed_set_pending ].
      apply untouched_framed. eapply untouched_trans; eassumption.
    + intros k. simpl. rewrite G2. apply R1.
Qed.

(** The calls of [save] before its loop, when none of them fails. *)
Lemma save_reliable_loop now results w :
  reliable w ->
  exists w5,
    framed w w5 /\ reliable w5 /\ pending w5 = Some (committed w) /\
    save now results w =
      (let (o, w6) := save_rows (Format now) results w5 in
       match o with
       | Some out => (out, w6)
       | None => (Sql.Commit ;; ret (Returned None))%sql w6
       end).
Proof.
  intros R. unfold save, Sql.Open, Sql.Begin, Sql.Prepare, bind.
  destruct (driver_reliable w R) as (w1 & E1 & U1). rewrite E1.
  pose proof (reliable_untouched _ _ U1 R) as R1.
  destruct (driver_reliable w1 R1) as (w2 & E2 & U2). rewrite E2.
  pose proof (untouched_trans _ _ _ U1 U2) as U12.
  cbv beta iota zeta.
  set (w2' := set_pending (Some (committed w2)) w2).
  assert (R2 : reliable w2').
  { intros k. simpl. destruct U12 as (_ & _ & _ & -> & _). apply R. }
  destruct (driver_reliable w2' R2) as (w3 & E3 & U3). rewrite E3.
  pose proof (reliable_untouched _ _ U3 R2) as R3.
  destruct (driver_reliable w3 R3) as (w4 & E4 & U4). rewrite E4.
  pose proof (reliable_untouched _ _ U4 R3) as R4.
  destruct (driver_reliable w4 R4) as (w5 & E5 & U5). rewrite E5.
  pose proof (reliable_untouched _ _ U5 R4) as R5.
  exists w5. split; [ | split; [ assumption | split ] ].
  - eapply framed_trans; [ apply untouched_framed; exact U12 | ].
    eapply framed_trans; [ apply (framed_set_pending (Some (committed w2))) | ].
    apply untouched_framed.
    exact (untouched_trans _ _ _ U3 (untouched_trans _ _ _ U4 U5)).
  - destruct (untouched_trans _ _ _ U3 (untouched_trans _ _ _ U4 U5))
      as (_ & _ & -> & _).
    simpl. now destruct U12 as (_ & -> & _).
  - cbv beta iota zeta. destruct (save_rows (Format now) results w5) as [[o|] w6];
      reflexivity.
Qed.

Lemma save_reliable now results w :
  reliable w ->
  forallb has_port results = true ->
  keyed w = false \/
    NoDup (map key (fresh_rows (committed w) (Format now) results)) ->
  exists w',
    save now results w = (Returned None, w') /\
    committed w' = merged (committed w) (Format now) results /\
    pending w' = None /\ keyed w' = keyed w /\ fault w' = fault w.
Proof.
  intros R Hports Hk.
  destruct (save_reliable_loop now results w R) as (w5 & Fr5 & R5 & P5 & E).
  pose proof Fr5 as (K5 & T5 & G5 & L5).
  destruct (save_rows_reliable (Format now) results [] [] w5)
    as (w6 & E6 & Fr6 & R6 & P6); auto.
  - now rewrite merged_nil, T5.
  - now rewrite K5, T5.
  - rewrite app_nil_r in E6. rewrite E, E6. cbn [save_rows ret].
    pose proof Fr6 as (K6 & T6 & G6 & L6). simpl in P6. rewrite T5 in P6.
    unfold Sql.Commit, bind.
    destruct (driver_reliable w6 R6) as (w7 & E7 & U7). rewrite E7.
    pose proof U7 as (K7 & T7 & P7 & G7 & _).
    cbv beta iota zeta. rewrite P7, P6. eexists. split; [ reflexivity | ].
    simpl. repeat split; congruence.
Qed.

(** The first entry without a port is reached when nothing fails before. *)
Lemma save_panics now pre r post w :
  reliable w ->
  forallb has_port pre = true ->
  Posted.Ports r = [] ->
  keyed w = false \/
    NoDup (map key (fresh_rows (committed w) (Format now) pre)) ->
  exists w', save now (pre ++ r :: post) w = (Panicked, w').
Proof.
  intros R Hports EP Hk.
  destruct (save_reliable_loop now (pre ++ r :: post) w R)
    as (w5 & Fr5 & R5 & P5 & E).
  pose proof Fr5 as (K5 & T5 & G5 & L5).
  destruct (save_rows_reliable (Format now) pre [] (r :: post) w5)
    as (w6 & E6 & _); auto.
  - now rewrite merged_nil, T5.
  - now rewrite K5, T5.
  - rewrite E, E6. cbn [save_rows]. rewrite EP. now exists w6.
Qed.

(** ** The loops of [index] *)

Lemma Time_le_antisym t u : Time_le t u -> Time_le u t -> t = u.
Proof.
  unfold Time_le. intros H1 H2. apply (cmp_eq Time_ordering).
  destruct (Time_compare t u) eqn:E; [ reflexivity | | congruence ].
  apply (cmp_gt_lt _ Time_ordering) in E. congruence.
Qed.

Lemma countLatest_filter latest rows :
  countLatest latest rows =
  Z.of_nat (List.length
    (filter (fun r => Equal (parseTime (LastSeen r)) latest) rows)).
Proof.
  unfold countLatest.
  enough (G : forall n,
    fold_left (fun n r => if Equal (parseTime (LastSeen r)) latest
                          then n + 1 else n) rows n =
    n + Z.of_nat (List.length
          (filter (fun r => Equal (parseTime (LastSeen r)) latest) rows)))
    by apply (G 0).
  induction rows as [|r rows IH]; intros n; simpl; [ lia | ].
  rewrite IH. destruct (Equal (parseTime (LastSeen r)) latest); simpl; lia.
Qed.

Lemma latest_fold rows : forall t0,
  let m := fold_left
             (fun latest r =>
                if After (parseTime (LastSeen r)) latest
                then parseTime (LastSeen r) else latest) rows t0 in
  Time_le t0 m /\
  Forall (fun r => Time_le (parseTime (LastSeen r)) m) rows /\
  (m = t0 \/ exists r, In r rows /\ m = parseTime (LastSeen r)).
Proof.
  induction rows as [|r rows IH]; intros t0; simpl.
  - auto using Time_le_refl.
  - destruct (After (parseTime (LastSeen r)) t0) eqn:E.
    + destruct (IH (parseTime (LastSeen r))) as (H1 & H2 & H3).
      apply After_le in E. split; [ eauto using Time_le_trans | ].
      split; [ now constructor | ].
      right. destruct H3 as [-> | (r' & Hr' & ->)]; eauto.
    + destruct (IH t0) as (H1 & H2 & H3).
      apply not_After_le in E. split; [ assumption | ].
      split; [ constructor; eauto using Time_le_trans | ].
      destruct H3 as [-> | (r' & Hr' & ->)]; eauto.
Qed.

Lemma latestOf_latest_in rows r :
  In r rows -> Time_le zeroTime (parseTime (LastSeen r)) ->
  (Equal (parseTime (LastSeen r)) (latestOf rows) = true <-> latest_in rows r).
Proof.
  intros Hr Hz. destruct (latest_fold rows zeroTime) as (H1 & H2 & H3).
  fold (latestOf rows) in H1, H2, H3. rewrite Equal_eq. unfold latest_in. split.
  - now intros ->.
  - intros Hall. apply Time_le_antisym.
    + rewrite Forall_forall in H2. now apply H2.
    + destruct H3 as [-> | (r' & Hr' & ->)]; [ assumption | ].
      rewrite Forall_forall in Hall. now apply Hall.
Qed.

Lemma index_spec ipq w rows err w' :
  load ipq w = (rows, err, w') ->
  index ipq w =
    (match err with Some e => [Text 500 e] | None => [] end ++
     [Render 200 "index"
        (mkIndexData (Z.of_nat (List.length rows))
           (countLatest (latestOf rows) rows) rows)], w').
Proof. intros E. unfold index, bind. now rewrite E. Qed.

Lemma ips_spec w rows err w' :
  load "" w = (rows, err, w') ->
  ips w =
    (match err with Some e => [Text 500 e] | None => [] end ++
     [JSON 200 (map IP rows)], w').
Proof.
  intros E. unfold ips, bind. rewrite E. cbv beta iota zeta.
  replace (fold_left (fun acc r => acc ++ [IP r]) rows []) with (map IP rows);
    [ reflexivity | ].
  enough (G : forall acc,
            fold_left (fun acc r => acc ++ [IP r]) rows acc = acc ++ map IP rows)
    by (now rewrite G).
  clear E. induction rows as [|r rows IH]; intros acc; simpl.
  - now rewrite app_nil_r.
  - rewrite IH, <- app_assoc. reflexivity.
Qed.

Lemma New_display r :
  New (display r) = true <->
  parseTime (LastSeen (display r)) = parseTime (FirstSeen (display r)).
Proof. simpl. apply Equal_eq. Qed.

Lemma in_firstn {A} (x : A) k l : In x (firstn k l) -> In x l.
Proof.
  intros H. rewrite <- (firstn_skipn k l). apply in_or_app. now left.
Qed.

Lemma load_rows_display s w r :
  In r (fst (fst (load s w))) ->
  exists row, In row (committed w) /\ matches s row = true /\ r = display row.
Proof.
  destruct (load s w) as [[d e] w'] eqn:E. simpl.
  apply load_spec in E as (_ & (k & ->) & _). intros H.
  apply in_map_iff in H as (row & <- & Hrow). exists row.
  apply in_firstn in Hrow.
  apply (Permutation_in _ (order_by_perm _)) in Hrow.
  apply filter_In in Hrow as [H1 H2]. auto.
Qed.

Lemma load_New s w r :
  In r (fst (fst (load s w))) ->
  (New r = true <-> parseTime (LastSeen r) = parseTime (FirstSeen r)).
Proof.
  intros H. apply load_rows_display in H as (row & _ & _ & ->).
  apply New_display.
Qed.

(** ** Further facts about the batch, the history and the scenario *)

Lemma validTime_minute1 : validTime Scenario.minute1.
Proof. unfold validTime. repeat split; vm_compute; discriminate. Qed.

Lemma validTime_minute2 : validTime Scenario.minute2.
Proof. unfold validTime. repeat split; vm_compute; discriminate. Qed.

Lemma reliable_empty k : reliable (empty_world k).
Proof. intros n. reflexivity. Qed.

(** The scenario: the same tuple posted at [t1] and again at [t2]. *)
Lemma reingest_store k t1 t2 :
  let e := tcp "10.0.0.1" 22 in
  let w1 := snd (save t1 [e] (empty_world k)) in
  let w2 := snd (save t2 [e] w1) in
  committed w1 = [mkRow "10.0.0.1" 22 "tcp" (Format t1) (Format t1)] /\
  committed w2 = [mkRow "10.0.0.1" 22 "tcp" (Format t1) (Format t2)] /\
  reliable w2.
Proof.
  intros e w1 w2.
  destruct (save_reliable t1 [e] (empty_world k) (reliable_empty k) eq_refl)
    as (v1 & E1 & T1 & P1 & K1 & G1).
  { right. repeat constructor. intros []. }
  assert (R1 : reliable v1) by (intros n; now rewrite G1).
  assert (Ew1 : w1 = v1) by (unfold w1; now rewrite E1).
  simpl in T1.
  destruct (save_reliable t2 [e] v1 R1 eq_refl) as (v2 & E2 & T2 & P2 & K2 & G2).
  { right. rewrite T1. constructor. }
  assert (Ew2 : w2 = v2) by (unfold w2; now rewrite Ew1, E2).
  rewrite Ew1, Ew2, T2, T1. repeat split.
  intros n. now rewrite G2.
Qed.

Lemma filter_none {A} (f : A -> bool) l :
  (forall x, In x l -> f x = false) -> filter f l = [].
Proof.
  induction l as [|x l IH]; intros H; simpl; [ reflexivity | ].
  rewrite (H x (or_introl eq_refl)). apply IH. intros y Hy. apply H. now right.
Qed.

Lemma filter_all {A} (f : A -> bool) l :
  (forall x, In x l -> f x = true) -> filter f l = l.
Proof.
  induction l as [|x l IH]; intros H; simpl; [ reflexivity | ].
  rewrite (H x (or_introl eq_refl)). f_equal. apply IH.
  intros y Hy. apply H. now right.
Qed.

Lemma hits_key e p ps r :
  Posted.Ports e = p :: ps ->
  (hits e r = true <-> key r = (Posted.IP e, Posted.Port p, Posted.Proto p)).
Proof. intros EP. unfold hits. rewrite EP. apply same_key_iff. Qed.

(** Every entry of the batch has its record in the merged table, last seen
    at the time of the batch. *)
Lemma merged_lands tbl now results e p ps :
  In e results -> Posted.Ports e = p :: ps ->
  exists r,
    In r (merged tbl now results) /\
    key r = (Posted.IP e, Posted.Port p, Posted.Proto p) /\ lastseen r = now.
Proof.
  intros He EP. destruct (known tbl e) eqn:K.
  - apply existsb_exists in K as (r0 & Hr0 & Hh).
    exists (touched now results r0). split; [ | split ].
    + unfold merged. apply in_or_app. left. now apply in_map.
    + rewrite key_touched. now apply (hits_key _ _ _ _ EP).
    + unfold touched.
      assert (Ex : existsb (fun e0 => hits e0 r0) results = true)
        by (apply existsb_exists; eauto).
      now rewrite Ex.
  - exists (mkRow (Posted.IP e) (Posted.Port p) (Posted.Proto p) now now).
    split; [ | now split ].
    unfold merged. apply in_or_app. right. apply in_fresh_rows.
    now exists e, p, ps.
Qed.

Lemma touched_fields now results r :
  ip (touched now results r) = ip r /\
  port (touched now results r) = port r /\
  proto (touched now results r) = proto r /\
  firstseen (touched now results r) = firstseen r /\
  lastseen (touched now results r) =
    if existsb (fun e => hits e r) results then now else lastseen r.
Proof. unfold touched. now destruct (existsb _ results). Qed.

Lemma fresh_not_stored tbl now results r :
  In r (fresh_rows tbl now results) -> ~ In (key r) (map key tbl).
Proof.
  intros H Hin. apply in_fresh_rows in H as (e & p & ps & _ & K & EP & ->).
  apply (proj2 (existsb_same_key _ _ _ _)) in Hin.
  rewrite <- (known_eq _ _ _ _ EP) in Hin. congruence.
Qed.

Lemma fresh_rows_one_each tbl now results :
  forallb has_port results = true ->
  Forall2
    (fun e r =>
       exists p ps,
         Posted.Ports e = p :: ps /\
         r = mkRow (Posted.IP e) (Posted.Port p) (Posted.Proto p) now now)
    (filter (fun e => negb (known tbl e)) results)
    (fresh_rows tbl now results).
Proof.
  induction results as [|e results IH]; simpl; intros H; [ constructor | ].
  apply andb_prop in H as [He H]. specialize (IH H).
  unfold has_port in He. destruct (known tbl e); simpl; [ exact IH | ].
  unfold fresh_row. destruct (Posted.Ports e) as [|p ps] eqn:EP;
    [ discriminate | ].
  simpl. constructor; [ now exists p, ps | exact IH ].
Qed.

(** Without a key on the table, a batch that names a new tuple twice
    stores it twice, for the lookup does not see the first insert; with
    the key, the second insert fails and the batch is rolled back. *)
Lemma repeated_tuple_in_batch :
  committed (snd (save Scenario.minute1 [Scenario.ssh; Scenario.ssh]
                    (empty_world false))) =
    [mkRow "10.0.0.1" 22 "tcp" "2024-03-09 07:05" "2024-03-09 07:05";
     mkRow "10.0.0.1" 22 "tcp" "2024-03-09 07:05" "2024-03-09 07:05"] /\
  fst (save Scenario.minute1 [Scenario.ssh; Scenario.ssh] (empty_world true)) =
    Returned (Some ErrConstraint) /\
  committed (snd (save Scenario.minute1 [Scenario.ssh; Scenario.ssh]
                    (empty_world true))) = [].
Proof. repeat split; vm_compute; reflexivity. Qed.

Lemma stamped_intro t r f l :
  validTime f -> validTime l ->
  firstseen r = Format f -> lastseen r = Format l ->
  Time_le f l -> Time_le l t -> stamped t r.
Proof.
  intros. exists f, l. repeat (split; [ assumption | ]). assumption.
Qed.

Lemma stamped_later t t' r : Time_le t t' -> stamped t r -> stamped t' r.
Proof.
  intros Ht (f & l & Vf & Vl & Ef & El & Hfl & Hl).
  apply (stamped_intro _ _ f l); eauto using Time_le_trans.
Qed.

Lemma stamped_merged t now tbl results :
  validTime now -> Time_le t now ->
  Forall (stamped t) tbl ->
  Forall (stamped now) (merged tbl (Format now) results).
Proof.
  intros Vn Ht Htbl. unfold merged. apply Forall_app. split.
  - apply Forall_map. eapply Forall_impl; [ | exact Htbl ].
    intros r (f & l & Vf & Vl & Ef & El & Hfl & Hl). unfold touched.
    destruct (existsb _ results).
    + apply (stamped_intro _ _ f now);
        eauto using Time_le_trans, Time_le_refl.
    + apply (stamped_intro _ _ f l); eauto using Time_le_trans.
  - apply Forall_forall. intros r Hr.
    apply lastseen_fresh in Hr as [El Ef].
    apply (stamped_intro _ _ now now); auto using Time_le_refl.
Qed.

Lemma ingested_stamped t w :
  ingested t w ->
  Forall (stamped t) (committed w) /\
  (keyed w = true -> NoDup (map key (committed w))).
Proof.
  induction 1 as [t k f n | t now results w w' Hw [IHs IHk] Vn Ht Hs].
  - simpl. split; constructor.
  - apply save_spec in Hs as (K & _ & _ & _ & _ & _ & T & Hnd).
    split.
    + rewrite T. destruct (fault w _).
      * eapply Forall_impl; [ | exact IHs ]. intros r. now apply stamped_later.
      * now apply (stamped_merged t).
    + rewrite K. intros Hk. auto.
Qed.

Lemma first_portless results :
  forallb has_port results = false ->
  exists pre r post,
    results = pre ++ r :: post /\
    forallb has_port pre = true /\ Posted.Ports r = [].
Proof.
  induction results as [|e results IH]; simpl; [ discriminate | ].
  destruct (has_port e) eqn:He; simpl.
  - intros H. destruct (IH H) as (pre & r & post & -> & Hp & Hr).
    exists (e :: pre), r, post. simpl. now rewrite He.
  - intros _. exists [], e, results. repeat split.
    unfold has_port in He. now destruct (Posted.Ports e).
Qed.

Lemma forallb_has_port results :
  forallb has_port results = true <->
  forall r, In r results -> Posted.Ports r <> [].
Proof.
  rewrite forallb_forall. unfold has_port.
  split; intros H r Hr; specialize (H r Hr); now destruct (Posted.Ports r).
Qed.

Lemma New_texts row f l :
  validTime f -> validTime l ->
  firstseen row = Format f -> lastseen row = Format l ->
  (New (display row) = true <-> lastseen row = firstseen row).
Proof.
  intros Hf Hl Ef El. rewrite New_display. simpl. rewrite Ef, El.
  rewrite !parseTime_Format by assumption.
  split; [ now intros -> | now apply Format_inj ].
Qed.

(** *** Tuples named by a batch *)












(** * The claims *)

(** C1, as stated, fails in its own scenario: after [(10.0.0.1,22,tcp)] is
    posted again a minute later, the one row returned has the latest
    [LastSeen] of the rows loaded, and its [New] is [false]. *)
Lemma reingest_latest_not_New :
  let rows := fst (fst (load "" (Scenario.twice true))) in
  ~ (forall r, In r rows -> (New r = true <-> latest_in rows r)).
Proof.
  intros rows H.
  assert (E : rows = [mkScandata "10.0.0.1" 22 "tcp"
                        "2024-03-09 07:05" "2024-03-09 07:06" false])
    by (vm_compute; reflexivity).
  specialize (H _ (or_introl eq_refl : In _ (_ :: _))) as [_ H].
  clearbody rows. subst rows.
  enough (false = true) by discriminate.
  apply H. constructor; [ | constructor ]. apply Time_le_refl.
Qed.

(** C1, amended.  For every query, [New] is set on a row exactly when its
    [LastSeen] is its own [FirstSeen]; the rows whose [LastSeen] is the
    latest of the rows loaded are those that [index] counts in [Latest].
    In the scenario, where a tuple is posted at [t1] and again at a later
    minute [t2], the one row returned has [New = false] and [Latest] is 1. *)
Theorem index_counts_latest_batch ipq w k t1 t2 :
  validTime t1 -> validTime t2 ->
  Time_compare t1 t2 = Lt -> Time_le zeroTime t2 ->
  (let rows := fst (fst (load ipq w)) in
   (forall r, In r rows ->
      (New r = true <-> parseTime (LastSeen r) = parseTime (FirstSeen r))) /\
   exists failed data,
     fst (index ipq w) = failed ++ [Render 200 "index" data] /\
     Results data = rows /\
     Total data = Z.of_nat (List.length rows) /\
     Latest data =
       Z.of_nat (List.length
         (filter (fun r => Equal (parseTime (LastSeen r)) (latestOf rows))
                 rows)) /\
     (forall r, In r rows -> Time_le zeroTime (parseTime (LastSeen r)) ->
        (Equal (parseTime (LastSeen r)) (latestOf rows) = true <->
         latest_in rows r))) /\
  (let w2 := snd (save t2 [tcp "10.0.0.1" 22]
                    (snd (save t1 [tcp "10.0.0.1" 22] (empty_world k)))) in
   fst (load "" w2) =
     ([mkScandata "10.0.0.1" 22 "tcp" (Format t1) (Format t2) false], None) /\
   exists data,
     fst (index "" w2) = [Render 200 "index" data] /\
     Total data = 1 /\ Latest data = 1).
Proof.
  intros V1 V2 Hlt Hz. split.
  - intros rows. split.
    + intros r Hr. now apply (load_New ipq w r).
    + destruct (load ipq w) as [[d e] w'] eqn:E.
      rewrite (index_spec _ _ _ _ _ E). subst rows. simpl.
      eexists _, _. split; [ reflexivity | ]. simpl.
      repeat split; auto using countLatest_filter.
      all: now apply latestOf_latest_in.
  - intros w2. destruct (reingest_store k t1 t2) as (_ & T2 & R2).
    fold w2 in T2, R2.
    destruct (load "" w2) as [[d e] w3] eqn:E.
    pose proof (index_spec _ _ _ _ _ E) as Ei.
    apply load_spec in E as (_ & _ & _ & Hr).
    destruct (Hr R2) as (-> & ->). clear Hr. rewrite T2 in *.
    set (row := mkRow "10.0.0.1" 22 "tcp" (Format t1) (Format t2)) in *.
    change (map display (Sql.order_by (filter (matches "") [row])))
      with [display row] in *.
    assert (En : Equal t2 t1 = false).
    { apply not_true_is_false. rewrite Equal_eq. intros ->.
      now rewrite (cmp_refl _ Time_ordering) in Hlt. }
    assert (Ed : display row =
                 mkScandata "10.0.0.1" 22 "tcp" (Format t1) (Format t2) false).
    { unfold display, row. cbn [ip port proto firstseen lastseen].
      now rewrite !parseTime_Format, En by assumption. }
    rewrite Ed in *. split; [ reflexivity | ].
    rewrite Ei. eexists. split; [ reflexivity | ]. split; [ reflexivity | ].
    cbn [Latest]. unfold latestOf, countLatest. cbn [fold_left LastSeen].
    rewrite !parseTime_Format by assumption.
    destruct (After t2 zeroTime) eqn:Ea.
    + now rewrite Equal_refl.
    + apply not_After_le in Ea.
      now rewrite (Time_le_antisym _ _ Ea Hz), Equal_refl.
Qed.

Lemma index_counts_latest_batch_witness :
  (validTime Scenario.minute1 /\ validTime Scenario.minute2 /\
   Time_compare Scenario.minute1 Scenario.minute2 = Lt /\
   Time_le zeroTime Scenario.minute2) /\
  fst (load "" (Scenario.twice true)) =
    ([mkScandata "10.0.0.1" 22 "tcp"
        (Format Scenario.minute1) (Format Scenario.minute2) false], None).
Proof.
  assert (Hlt : Time_compare Scenario.minute1 Scenario.minute2 = Lt)
    by reflexivity.
  assert (Hz : Time_le zeroTime Scenario.minute2) by (vm_compute; discriminate).
  split; [ repeat split; auto using validTime_minute1, validTime_minute2 | ].
  exact (proj1 (proj2 (index_counts_latest_batch "" (empty_world true) true
                         Scenario.minute1 Scenario.minute2
                         validTime_minute1 validTime_minute2 Hlt Hz))).
Defined.

(** C2. Every row that [load] returns has [New] set exactly when the time
    read from its [LastSeen] equals the time read from its [FirstSeen].
    When both texts are as [save] writes them, as they are in every store
    that [save] has filled, this is when the two texts are the same. *)
Theorem load_New_iff_first_eq_last s w r :
  In r (fst (fst (load s w))) ->
  (New r = true <-> parseTime (LastSeen r) = parseTime (FirstSeen r)) /\
  (forall f l,
     validTime f -> validTime l ->
     FirstSeen r = Format f -> LastSeen r = Format l ->
     (New r = true <-> LastSeen r = FirstSeen r)) /\
  (forall t, ingested t w -> (New r = true <-> LastSeen r = FirstSeen r)).
Proof.
  intros H. split; [ now apply (load_New s w) | ].
  apply load_rows_display in H as (row & Hrow & _ & ->). split.
  - intros f l Hf Hl Ef El. now apply (New_texts row f l).
  - intros t Ht. apply ingested_stamped in Ht as [Hs _].
    rewrite Forall_forall in Hs.
    destruct (Hs row Hrow) as (f & l & Vf & Vl & Ef & El & _).
    now apply (New_texts row f l).
Qed.

Lemma load_New_iff_first_eq_last_witness :
  let r := mkScandata "10.0.0.1" 22 "tcp"
             "2024-03-09 07:05" "2024-03-09 07:06" false in
  In r (fst (fst (load "" (Scenario.twice true)))) /\
  (New r = true <-> parseTime (LastSeen r) = parseTime (FirstSeen r)).
Proof.
  assert (H : In (mkScandata "10.0.0.1" 22 "tcp"
                    "2024-03-09 07:05" "2024-03-09 07:06" false)
                 (fst (fst (load "" (Scenario.twice true)))))
    by (vm_compute; left; reflexivity).
  split; [ exact H | ].
  exact (proj1 (load_New_iff_first_eq_last "" (Scenario.twice true) _ H)).
Defined.

(** C3. Whatever calls fail, [save] leaves the table either as it was or
    with the whole batch merged.  When it returns an error the table is as
    it was and the transaction is rolled back, and the error is that of the
    call that failed.  A call that fails within [save] makes it return an
    error, unless it is the final commit, in which case nothing is stored. *)
Theorem save_all_or_nothing now results w o w' :
  pending w = None ->
  save now results w = (o, w') ->
  (forall e, o = Returned (Some e) ->
     committed w' = committed w /\ pending w' = None /\
     (e = ErrConstraint \/
      exists m, e = ErrDriver m /\ fault w (pred (calls w')) = Some m)) /\
  (forall k m, (calls w <= k < calls w')%nat -> fault w k = Some m ->
     (exists e, o = Returned (Some e)) \/
     (o = Returned None /\ k = pred (calls w') /\ committed w' = committed w)) /\
  (committed w' = committed w \/
   o = Returned None /\
   committed w' = merged (committed w) (Format now) results /\
   forall e p ps, In e results -> Posted.Ports e = p :: ps ->
     exists r, In r (committed w') /\
       key r = (Posted.IP e, Posted.Port p, Posted.Proto p) /\
       lastseen r = Format now).
Proof.
  intros HP H. apply save_spec in H as (K & G & L & Ho).
  destruct o as [[e|]|].
  - destruct Ho as (T & P & He). split; [ | split ].
    + intros e' [= <-]. repeat split; auto.
      destruct He as [[-> _] | He]; auto.
    + intros k m _ _. left. now exists e.
    + now left.
  - destruct Ho as (P & Q & Hf & T & _). split; [ discriminate | split ].
    + intros k m Hk F. right. split; [ reflexivity | ].
      assert (Ek : k = pred (calls w')).
      { destruct (Nat.lt_ge_cases k (pred (calls w'))) as [Hlt | Hge];
          [ | lia ].
        rewrite Q in F by lia. discriminate. }
      split; [ exact Ek | ]. subst k. now rewrite F in T.
    + destruct (fault w (pred (calls w'))); [ now left | right ].
      split; [ reflexivity | ]. split; [ exact T | ].
      intros e p ps He EP. rewrite T. now apply (merged_lands _ _ _ e p ps).
  - destruct Ho as (T & Q & Hf). split; [ discriminate | split ].
    + intros k m Hk F. rewrite Q in F by exact Hk. discriminate.
    + now left.
Qed.

Lemma save_all_or_nothing_witness :
  let w := mkWorld true [mkRow "10.0.0.9" 443 "tcp"
                           "2024-03-09 07:00" "2024-03-09 07:00"] None
             (fun k => if (k =? 8)%nat then Some "disk I/O error" else None) 0 in
  let batch := [tcp "10.0.0.1" 22; tcp "10.0.0.2" 22; tcp "10.0.0.3" 22] in
  let o := fst (save Scenario.minute1 batch w) in
  let w' := snd (save Scenario.minute1 batch w) in
  (pending w = None /\ save Scenario.minute1 batch w = (o, w')) /\
  o = Returned (Some (ErrDriver "disk I/O error")) /\
  committed w' = committed w /\ pending w' = None.
Proof.
  intros w batch o w'.
  assert (HP : pending w = None) by reflexivity.
  assert (H : save Scenario.minute1 batch w = (o, w'))
    by (unfold o, w'; now destruct (save Scenario.minute1 batch w)).
  split; [ now split | ].
  assert (Eo : o = Returned (Some (ErrDriver "disk I/O error")))
    by (vm_compute; reflexivity).
  split; [ exact Eo | ].
  destruct (proj1 (save_all_or_nothing Scenario.minute1 batch w o w' HP H)
              _ Eo) as (T & P & _).
  now split.
Defined.








(** C7, as stated, fails for a filter with a wildcard of [LIKE]: the
    filter ["_"] returns the row of [10.0.0.1], whose IP does not contain
    it. *)
Lemma underscore_filter_matches_any :
  fst (load "_" (Scenario.twice true)) =
    ([mkScandata "10.0.0.1" 22 "tcp"
        "2024-03-09 07:05" "2024-03-09 07:06" false], None) /\
  contains "_" "10.0.0.1" = false.
Proof. split; vm_compute; reflexivity. Qed.

(** C7, amended.  When no call fails, [load] returns the stored records
    whose IP matches [LIKE '%' || filter || '%'], all records when the
    filter is empty, in ascending order of [(port, proto, ip, lastseen)],
    the integer by value and the texts byte by byte.  For a filter of at
    most 49998 bytes, all of them ASCII characters other than NUL, [%] and
    [_], these are the records whose IP, up to its first NUL byte,
    contains the filter as a substring, ASCII letters in either case. *)
Theorem load_filters_and_orders s w :
  reliable w ->
  exists rows,
    fst (load s w) = (map display rows, None) /\
    Permutation rows (filter (matches s) (committed w)) /\
    StronglySorted report_le rows /\
    (s = "" -> forall r, matches s r = true) /\
    (s <> "" -> forall r,
       matches s r = true <->
       Sql.like ("%" ++ s ++ "%") (ip r) = Some true) /\
    (plain (list_ascii_of_string s) = true ->
     ascii_text (list_ascii_of_string s) = true ->
     Z.of_nat (String.length s) <= 49998 ->
     forall r, matches s r = contains_nocase s (c_string (ip r))).
Proof.
  intros R. destruct (load s w) as [[d e] w'] eqn:E.
  apply load_spec in E as (_ & _ & _ & Hr). destruct (Hr R) as (-> & ->).
  exists (Sql.order_by (filter (matches s) (committed w))).
  split; [ reflexivity | ]. split; [ apply order_by_perm | ].
  split; [ apply order_by_report | ]. split; [ | split ].
  - intros -> r. apply matches_empty.
  - intros Hs r. rewrite (matches_like s r Hs).
    destruct (Sql.like _ (ip r)) as [[|]|]; split; congruence.
  - intros Hp Ha Hl r. now apply matches_plain.
Qed.

Lemma load_filters_and_orders_witness :
  reliable (Scenario.two_ports false) /\
  exists rows,
    fst (load "0.0" (Scenario.two_ports false)) = (map display rows, None) /\
    Permutation rows
      (filter (matches "0.0") (committed (Scenario.two_ports false))) /\
    StronglySorted report_le rows /\
    forall r, matches "0.0" r = contains_nocase "0.0" (c_string (ip r)).
Proof.
  assert (R : reliable (Scenario.two_ports false)) by (intros n; reflexivity).
  split; [ exact R | ].
  destruct (load_filters_and_orders "0.0" (Scenario.two_ports false) R)
    as (rows & H1 & H2 & H3 & _ & _ & H4).
  exists rows. split; [ exact H1 | ]. split; [ exact H2 | ].
  split; [ exact H3 | ].
  apply H4; [ reflexivity | reflexivity | vm_compute; discriminate ].
Defined.

(** C8, as stated, fails for a host with two records: its IP comes twice
    in the list. *)
Lemma ips_repeats_ip :
  fst (ips (Scenario.two_ports true)) = [JSON 200 ["10.0.0.1"; "10.0.0.1"]] /\
  map ip (committed (Scenario.two_ports true)) = ["10.0.0.1"; "10.0.0.1"] /\
  ~ NoDup ["10.0.0.1"; "10.0.0.1"].
Proof.
  split; [ vm_compute; reflexivity | ]. split; [ vm_compute; reflexivity | ].
  intros H. inversion H as [|x l Hin _]. apply Hin. now left.
Qed.

(** C8, amended.  When no call fails, [ips] answers with the IP of every
    stored record, unfiltered and in the order of the report: one entry for
    each record, so that an IP comes as many times as it has records. *)
Theorem ips_lists_ip_of_each_record w :
  reliable w ->
  exists l,
    fst (ips w) = [JSON 200 l] /\
    l = map IP (fst (fst (load "" w))) /\
    l = map ip (Sql.order_by (committed w)) /\
    Permutation l (map ip (committed w)) /\
    (forall i,
       count_occ string_dec l i = count_occ string_dec (map ip (committed w)) i).
Proof.
  intros R. destruct (load "" w) as [[d e] w'] eqn:E.
  rewrite (ips_spec _ _ _ _ E). simpl.
  apply load_spec in E as (_ & _ & _ & Hr). destruct (Hr R) as (-> & ->).
  assert (Ef : filter (matches "") (committed w) = committed w)
    by (apply filter_all; intros r _; apply matches_empty).
  rewrite Ef. eexists. split; [ reflexivity | ]. split; [ reflexivity | ].
  assert (Em : map IP (map display (Sql.order_by (committed w))) =
               map ip (Sql.order_by (committed w)))
    by (rewrite map_map; reflexivity).
  rewrite Em. split; [ reflexivity | ].
  assert (Hp : Permutation (map ip (Sql.order_by (committed w)))
                           (map ip (committed w)))
    by (apply Permutation_map, order_by_perm).
  split; [ exact Hp | ].
  intros i. revert i. now apply Permutation_count_occ.
Qed.

Lemma ips_lists_ip_of_each_record_witness :
  reliable (Scenario.two_ports true) /\
  exists l,
    fst (ips (Scenario.two_ports true)) = [JSON 200 l] /\
    Permutation l (map ip (committed (Scenario.two_ports true))).
Proof.
  assert (R : reliable (Scenario.two_ports true)) by (intros n; reflexivity).
  split; [ exact R | ].
  destruct (ips_lists_ip_of_each_record (Scenario.two_ports true) R)
    as (l & H1 & _ & _ & H2 & _).
  exists l. auto.
Defined.

(** C9. When no call into the store fails and the filter selects no row,
    as in an empty store, [load] returns the empty sequence and no error,
    and it leaves the table and the open transaction as they were. *)
Theorem load_no_rows_no_error s w :
  reliable w ->
  (forall r, In r (committed w) -> matches s r = false) ->
  fst (load s w) = ([], None) /\
  committed (snd (load s w)) = committed w /\
  pending (snd (load s w)) = pending w.
Proof.
  intros R Hnone. destruct (load s w) as [[d e] w'] eqn:E. simpl.
  apply load_spec in E as (U & _ & _ & Hr).
  destruct (Hr R) as (-> & ->). destruct U as (_ & T & P & _).
  split; [ | split; assumption ].
  now rewrite (filter_none _ _ Hnone).
Qed.

Lemma load_no_rows_no_error_witness :
  (reliable (Scenario.twice true) /\
   forall r, In r (committed (Scenario.twice true)) ->
             matches "192.168" r = false) /\
  fst (load "192.168" (Scenario.twice true)) = ([], None).
Proof.
  assert (R : reliable (Scenario.twice true)) by (intros n; reflexivity).
  assert (H : forall r, In r (committed (Scenario.twice true)) ->
                        matches "192.168" r = false).
  { assert (E : committed (Scenario.twice true) =
                 [mkRow "10.0.0.1" 22 "tcp"
                    "2024-03-09 07:05" "2024-03-09 07:06"])
      by (vm_compute; reflexivity).
    rewrite E. intros r [<- | []]. vm_compute. reflexivity. }
  split; [ now split | ].
  exact (proj1 (load_no_rows_no_error "192.168" (Scenario.twice true) R H)).
Defined.

(** C10. [save] indexes [r.Ports[0]] unguarded.  When every entry of the
    batch has a port the index is in range and [save] does not panic,
    whatever the store does; and when nothing fails before, a batch with an
    entry that has no port reaches the index out of range. *)
Theorem save_panics_iff_portless now results w :
  reliable w ->
  keyed w = false \/
    NoDup (map key (fresh_rows (committed w) (Format now) results)) ->
  (fst (save now results w) = Panicked <->
   exists r, In r results /\ Posted.Ports r = []) /\
  ((forall r, In r results -> Posted.Ports r <> []) ->
   forall w0, fst (save now results w0) <> Panicked).
Proof.
  intros R Hk. split; [ split | ].
  - destruct (save now results w) as [o w'] eqn:E. simpl. intros ->.
    apply save_spec in E as (_ & _ & _ & _ & _ & Hf).
    apply first_portless in Hf as (pre & r & post & -> & _ & Hr).
    exists r. split; [ apply in_or_app; right; now left | exact Hr ].
  - intros (r & Hr & EP).
    destruct (forallb has_port results) eqn:Hf.
    { rewrite forallb_has_port in Hf. now apply Hf in Hr. }
    apply first_portless in Hf as (pre & r' & post & -> & Hp & Hr').
    destruct (save_panics now pre r' post w R Hp Hr') as (w' & E).
    + destruct Hk as [Hk | Hk]; [ now left | right ].
      rewrite fresh_rows_app, map_app in Hk.
      now apply NoDup_app_remove_r in Hk.
    + now rewrite E.
  - intros Hall w0 Hpanic. apply forallb_has_port in Hall.
    destruct (save now results w0) as [o w'] eqn:E. simpl in Hpanic. subst o.
    apply save_spec in E as (_ & _ & _ & _ & _ & Hf). congruence.
Qed.

Lemma save_panics_iff_portless_witness :
  let batch := [Scenario.ssh; Scenario.portless; Scenario.http] in
  (reliable (empty_world true) /\
   (keyed (empty_world true) = false \/
    NoDup (map key (fresh_rows (committed (empty_world true))
                      (Format Scenario.minute1) batch)))) /\
  fst (save Scenario.minute1 batch (empty_world true)) = Panicked.
Proof.
  intros batch.
  assert (R : reliable (empty_world true)) by (intros n; reflexivity).
  assert (Hk : keyed (empty_world true) = false \/
               NoDup (map key (fresh_rows (committed (empty_world true))
                                 (Format Scenario.minute1) batch))).
  { right. vm_compute. repeat constructor; simpl; intuition discriminate. }
  split; [ now split | ].
  apply (proj1 (save_panics_iff_portless Scenario.minute1 batch
                  (empty_world true) R Hk)).
  exists Scenario.portless. split; [ right; left; reflexivity | reflexivity ].
Defined.

(** * Further properties of the code *)

(** ** [load] when a call fails *)

Lemma driver_quiet w :
  fault w (calls w) = None ->
  exists w', driver w = (None, w') /\ untouched w w' /\ calls w' = S (calls w).
Proof.
  intros F. destruct (driver_run w) as (w' & E & U & C).
  exists w'. rewrite E, F. auto.
Qed.

Lemma quiet_head w a b : (a < b)%nat -> quiet w a b -> fault w a = None.
Proof. intros H Q. apply Q. lia. Qed.

Lemma quiet_tail w w' a b c :
  (a <= b)%nat -> fault w' = fault w -> quiet w a c -> quiet w' b c.
Proof. intros H E Q k Hk. rewrite E. apply Q. lia. Qed.

Lemma load_rows_error rows : forall data w d e w',
  load_rows rows data w = (d, Some e, w') ->
  d = [] /\ exists m, e = ErrDriver m /\ fault w (pred (calls w')) = Some m.
Proof.
  induction rows as [|r rows IH]; intros data w d e w' H;
    cbn [load_rows] in H; unfold bind in H.
  - destruct (driver_run w) as (w1 & E1 & U1 & C1). rewrite E1 in H.
    discriminate.
  - destruct (driver_run w) as (w1 & E1 & U1 & C1). rewrite E1 in H.
    pose proof U1 as (_ & _ & _ & G1 & _).
    destruct (fault w (calls w)) as [m1|] eqn:F1; run H; [ discriminate | ].
    destruct (driver_run w1) as (w2 & E2 & U2 & C2). rewrite E2 in H.
    pose proof U2 as (_ & _ & _ & G2 & _).
    destruct (fault w1 (calls w1)) as [m2|] eqn:F2; run H.
    + injection H as <- <- <-. split; [ reflexivity | ].
      exists m2. split; [ reflexivity | ]. rewrite C2. simpl. congruence.
    + apply IH in H as (-> & m & -> & Hm). split; [ reflexivity | ].
      exists m. split; [ reflexivity | ]. congruence.
Qed.

Lemma load_error s w d e w' :
  load s w = (d, Some e, w') ->
  d = [] /\ exists m, e = ErrDriver m /\ fault w (pred (calls w')) = Some m.
Proof.
  unfold load, Sql.Open, Sql.Query, bind. intros H.
  destruct (driver_run w) as (w1 & E1 & U1 & C1). rewrite E1 in H.
  pose proof U1 as (_ & _ & _ & G1 & _).
  destruct (fault w (calls w)) as [m1|] eqn:F1; run H.
  { injection H as <- <- <-. split; [ reflexivity | ].
    exists m1. split; [ reflexivity | ]. now rewrite C1. }
  destruct (driver_run w1) as (w2 & E2 & U2 & C2). rewrite E2 in H.
  pose proof U2 as (_ & _ & _ & G2 & _).
  destruct (fault w1 (calls w1)) as [m2|] eqn:F2; run H.
  { injection H as <- <- <-. split; [ reflexivity | ].
    exists m2. split; [ reflexivity | ]. rewrite C2. simpl. congruence. }
  apply load_rows_error in H as (-> & m & -> & Hm). split; [ reflexivity | ].
  exists m. split; [ reflexivity | ]. congruence.
Qed.

(** X1. When [load] returns an error it returns no row, also when the call
    that fails is a [rows.Scan] after rows were read; the error is that of
    the failing call, the last one made; and the table is as it was. *)
Theorem load_error_returns_no_rows s w d e w' :
  load s w = (d, Some e, w') ->
  d = [] /\
  (exists m, e = ErrDriver m /\ fault w (pred (calls w')) = Some m) /\
  committed w' = committed w /\ pending w' = pending w.
Proof.
  intros H. pose proof (load_error _ _ _ _ _ H) as (Hd & He).
  apply load_spec in H as ((_ & T & P & _) & _). auto.
Qed.

Lemma load_error_returns_no_rows_witness :
  let w := failing_at 5 true two_rows in
  load "" w = ([], Some (ErrDriver "disk I/O error"), snd (load "" w)) /\
  committed (snd (load "" w)) = committed w.
Proof.
  intros w.
  assert (H : load "" w =
              ([], Some (ErrDriver "disk I/O error"), snd (load "" w)))
    by (vm_compute; reflexivity).
  split; [ exact H | ].
  exact (proj1 (proj2 (proj2 (load_error_returns_no_rows _ _ _ _ _ H)))).
Defined.

Lemma load_rows_cut rows : forall i data w m,
  (i < List.length rows)%nat ->
  quiet w (calls w) (calls w + 2 * i) ->
  fault w (calls w + 2 * i) = Some m ->
  fst (load_rows rows data w) = (data ++ map display (firstn i rows), None).
Proof.
  induction rows as [|r rows IH]; intros i data w m Hi Q F; simpl in Hi;
    [ lia | ].
  cbn [load_rows]. unfold bind.
  destruct (driver_run w) as (w1 & E1 & U1 & C1). rewrite E1.
  pose proof U1 as (_ & _ & _ & G1 & _).
  destruct i as [|i].
  - replace (calls w + 2 * 0)%nat with (calls w) in F by lia.
    rewrite F. simpl. now rewrite app_nil_r.
  - rewrite (quiet_head w (calls w) (calls w + 2 * S i) ltac:(lia) Q).
    cbn [option_map].
    destruct (driver_run w1) as (w2 & E2 & U2 & C2). rewrite E2.
    pose proof U2 as (_ & _ & _ & G2 & _).
    assert (F2 : fault w1 (calls w1) = None)
      by (rewrite G1, C1; apply Q; lia).
    rewrite F2. cbn [option_map].
    rewrite (IH i _ w2 m).
    + cbn [firstn map]. now rewrite <- app_assoc.
    + lia.
    + apply (quiet_tail w w2 (calls w)); [ lia | congruence | ].
      intros k Hk. apply Q. lia.
    + rewrite G2, G1, C2, C1, <- F. f_equal. lia.
Qed.

(** X2. When [rows.Next()] fails after [i] rows were read, [load] returns
    those [i] rows and no error: the source never reads [rows.Err()]. *)
Theorem load_failed_Next_truncates s w i m :
  (i < List.length (filter (matches s) (committed w)))%nat ->
  quiet w (calls w) (calls w + 2 + 2 * i) ->
  fault w (calls w + 2 + 2 * i) = Some m ->
  fst (load s w) =
    (map display (firstn i (Sql.order_by (filter (matches s) (committed w)))),
     None).
Proof.
  intros Hi Q F. unfold load, Sql.Open, Sql.Query, bind.
  destruct (driver_quiet w) as (w1 & E1 & U1 & C1);
    [ apply Q; lia | ].
  rewrite E1. pose proof U1 as (_ & T1 & _ & G1 & _).
  destruct (driver_quiet w1) as (w2 & E2 & U2 & C2);
    [ rewrite G1, C1; apply Q; lia | ].
  rewrite E2. pose proof U2 as (_ & T2 & _ & G2 & _).
  cbv beta iota zeta. fold (matches s). rewrite T2, T1.
  rewrite (load_rows_cut _ i [] w2 m); [ reflexivity | | | ].
  - now rewrite (Permutation_length (order_by_perm _)).
  - apply (quiet_tail w w2 (calls w)); [ lia | congruence | ].
    intros k Hk. apply Q. lia.
  - rewrite G2, G1, C2, C1, <- F. f_equal. lia.
Qed.

Lemma load_failed_Next_truncates_witness :
  let w := failing_at 4 true two_rows in
  ((1 < List.length (filter (matches "") (committed w)))%nat /\
   quiet w (calls w) (calls w + 2 + 2 * 1) /\
   fault w (calls w + 2 + 2 * 1) = Some "disk I/O error") /\
  fst (load "" w) =
    (map display (firstn 1 (Sql.order_by (filter (matches "") (committed w)))),
     None).
Proof.
  intros w.
  assert (Hi : (1 < List.length (filter (matches "") (committed w)))%nat)
    by (vm_compute; lia).
  assert (Q : quiet w (calls w) (calls w + 2 + 2 * 1)).
  { intros k Hk. simpl in Hk.
    assert (Hc : (k = 0 \/ k = 1 \/ k = 2 \/ k = 3)%nat) by lia.
    destruct Hc as [-> | [-> | [-> | ->]]]; reflexivity. }
  assert (F : fault w (calls w + 2 + 2 * 1) = Some "disk I/O error")
    by reflexivity.
  split; [ repeat split; assumption | ].
  exact (load_failed_Next_truncates "" w 1 _ Hi Q F).
Defined.

(** ** The filter of [load] *)

Lemma row_le_leb a b : row_le a b -> Sql.row_leb a b = true.
Proof.
  unfold row_le, Sql.row_leb. destruct (Sql.row_compare a b); congruence.
Qed.

Lemma insert_row_least r l :
  Forall (row_le r) l -> Sql.insert_row r l = r :: l.
Proof.
  destruct l as [|x l]; [ reflexivity | ].
  intros H. inversion H; subst. simpl. now rewrite row_le_leb.
Qed.

Lemma Forall_filter {A} (P : A -> Prop) f l :
  Forall P l -> Forall P (filter f l).
Proof.
  induction 1 as [|x l Hx Hl IH]; simpl; [ constructor | ].
  destruct (f x); [ now constructor | assumption ].
Qed.

Lemma filter_insert_row f r l :
  StronglySorted row_le l ->
  filter f (Sql.insert_row r l) =
  if f r then Sql.insert_row r (filter f l) else filter f l.
Proof.
  induction 1 as [|x l Hl IH Hx].
  - simpl. now destruct (f r).
  - cbn [Sql.insert_row]. destruct (Sql.row_leb r x) eqn:E.
    + cbn [filter]. destruct (f r) eqn:Fr; [ | reflexivity ].
      symmetry. apply insert_row_least.
      apply (Forall_filter _ f (x :: l)). apply row_leb_true in E.
      constructor; [ exact E | ].
      eapply Forall_impl; [ | exact Hx ].
      intros y Hy. eapply row_le_trans; eassumption.
    + cbn [filter]. rewrite IH. destruct (f x) eqn:Fx.
      * destruct (f r); [ | reflexivity ].
        cbn [Sql.insert_row]. now rewrite E.
      * now destruct (f r).
Qed.

Lemma order_by_filter f l :
  filter f (Sql.order_by l) = Sql.order_by (filter f l).
Proof.
  induction l as [|x l IH]; [ reflexivity | ].
  cbn [Sql.order_by fold_right filter].
  rewrite filter_insert_row by apply order_by_sorted.
  fold (Sql.order_by l). rewrite IH. now destruct (f x).
Qed.

Lemma load_reliable_rows s w :
  reliable w ->
  fst (load s w) =
    (map display (Sql.order_by (filter (matches s) (committed w))), None).
Proof.
  intros R. destruct (load s w) as [[d e] w'] eqn:E.
  apply load_spec in E as (_ & _ & _ & Hr). now destruct (Hr R) as (-> & ->).
Qed.

(** X3. When no call fails, what [load] returns for a filter is what it
    returns without a filter, less the rows that the filter does not
    select: the rows that stay are in the order they had. *)
Theorem load_filter_keeps_order s w :
  reliable w ->
  exists rows,
    fst (load "" w) = (map display rows, None) /\
    fst (load s w) = (map display (filter (matches s) rows), None).
Proof.
  intros R. exists (Sql.order_by (committed w)). split.
  - rewrite (load_reliable_rows "" w R).
    now rewrite (filter_all (matches "") (committed w))
      by (intros r _; apply matches_empty).
  - rewrite (load_reliable_rows s w R). now rewrite order_by_filter.
Qed.

Lemma reliable_stored k tbl : reliable (stored k tbl).
Proof. intros n. reflexivity. Qed.

Lemma load_filter_keeps_order_witness :
  reliable (stored true two_rows) /\
  exists rows,
    fst (load "" (stored true two_rows)) = (map display rows, None) /\
    fst (load "1" (stored true two_rows)) =
      (map display (filter (matches "1") rows), None).
Proof.
  split; [ apply reliable_stored | ].
  exact (load_filter_keeps_order "1" (stored true two_rows)
           (reliable_stored true two_rows)).
Defined.

Lemma list_ascii_nil s : list_ascii_of_string s = [] -> s = "".
Proof. destruct s; [ reflexivity | discriminate ]. Qed.

Lemma matches_fold s s' r :
  map Sql.lower (list_ascii_of_string s) =
  map Sql.lower (list_ascii_of_string s') ->
  matches s r = matches s' r.
Proof.
  intros E. destruct (string_dec s "") as [-> | Hs].
  - symmetry in E. apply map_eq_nil, list_ascii_nil in E. now subst s'.
  - assert (Hs' : s' <> "").
    { intros ->. apply map_eq_nil, list_ascii_nil in E. contradiction. }
    rewrite !matches_like by assumption.
    rewrite (like_fold ("%" ++ s ++ "%") ("%" ++ s' ++ "%")); [ reflexivity | ].
    rewrite !pattern_bound. simpl. now rewrite !map_app, E.
Qed.

(** X4. The filter of [load] does not tell upper case from lower case in
    ASCII letters: filters that differ in that only return the same rows. *)
Theorem load_filter_ignores_case s s' w :
  reliable w ->
  map Sql.lower (list_ascii_of_string s) =
  map Sql.lower (list_ascii_of_string s') ->
  fst (load s w) = fst (load s' w).
Proof.
  intros R E. rewrite !load_reliable_rows by assumption.
  do 3 f_equal. apply filter_ext. intros r. now apply matches_fold.
Qed.

Lemma load_filter_ignores_case_witness :
  let w := stored true [mkRow "fe80::1" 22 "tcp" "" ""] in
  (reliable w /\
   map Sql.lower (list_ascii_of_string "FE80") =
   map Sql.lower (list_ascii_of_string "fe80")) /\
  fst (load "FE80" w) = fst (load "fe80" w).
Proof.
  intros w.
  assert (R : reliable w) by apply reliable_stored.
  assert (E : map Sql.lower (list_ascii_of_string "FE80") =
              map Sql.lower (list_ascii_of_string "fe80")) by reflexivity.
  split; [ now split | ].
  exact (load_filter_ignores_case "FE80" "fe80" w R E).
Defined.

(** X5. A filter made of [%] characters only, of 49998 bytes at most,
    selects every row, as no filter does: the filter goes into the pattern
    unescaped. *)
Theorem load_percent_filter_selects_all s w :
  reliable w ->
  only_percent (list_ascii_of_string s) = true ->
  Z.of_nat (String.length s) <= 49998 ->
  fst (load s w) = fst (load "" w).
Proof.
  intros R Hs Hl. rewrite !load_reliable_rows by assumption.
  do 3 f_equal. apply filter_ext. intros r. rewrite matches_empty.
  destruct (string_dec s "") as [-> | Hne]; [ reflexivity | ].
  rewrite matches_like by assumption.
  rewrite like_only_percent; [ reflexivity | discriminate | | ].
  - rewrite pattern_bound. simpl. unfold only_percent in *.
    now rewrite forallb_app, Hs.
  - rewrite pattern_length. lia.
Qed.

Lemma load_percent_filter_selects_all_witness :
  (reliable (stored true two_rows) /\
   only_percent (list_ascii_of_string "%%") = true /\
   Z.of_nat (String.length "%%") <= 49998) /\
  fst (load "%%" (stored true two_rows)) = fst (load "" (stored true two_rows)).
Proof.
  assert (R : reliable (stored true two_rows)) by apply reliable_stored.
  assert (H : only_percent (list_ascii_of_string "%%") = true) by reflexivity.
  assert (L : Z.of_nat (String.length "%%") <= 49998)
    by (vm_compute; discriminate).
  split; [ exact (conj R (conj H L)) | ].
  exact (load_percent_filter_selects_all "%%" (stored true two_rows) R H L).
Defined.

Lemma matches_too_complex s r :
  49998 < Z.of_nat (String.length s) -> matches s r = false.
Proof.
  intros H.
  assert (Hne : s <> "") by (intros ->; simpl in H; lia).
  rewrite matches_like by assumption. now rewrite like_too_complex.
Qed.

(** X20. A filter of 49999 bytes or more returns no row, whatever is
    stored, and no error of its own: SQLite refuses the pattern when the
    statement is stepped, [rows.Next()] returns false, and [load] does not
    read [rows.Err()]. *)
Theorem load_overlong_filter_returns_nothing s w :
  49998 < Z.of_nat (String.length s) ->
  fst (fst (load s w)) = [] /\
  (reliable w -> fst (load s w) = ([], None)).
Proof.
  intros H.
  assert (Ef : filter (matches s) (committed w) = [])
    by (apply filter_none; intros r _; now apply matches_too_complex).
  split.
  - destruct (load s w) as [[d e] w'] eqn:E. simpl.
    apply load_spec in E as (_ & (k & ->) & _). rewrite Ef.
    now destruct k.
  - intros R. rewrite (load_reliable_rows s w R). now rewrite Ef.
Qed.

Lemma load_overlong_filter_returns_nothing_witness :
  let s := string_of_list_ascii (repeat "1"%char (Z.to_nat 49999)) in
  49998 < Z.of_nat (String.length s) /\
  fst (load s (stored true two_rows)) = ([], None) /\
  fst (fst (load "1" (stored true two_rows))) <> [].
Proof.
  intros s.
  assert (H : 49998 < Z.of_nat (String.length s)) by (vm_compute; reflexivity).
  split; [ exact H | ]. split.
  - exact (proj2 (load_overlong_filter_returns_nothing s
                    (stored true two_rows) H) (reliable_stored true two_rows)).
  - vm_compute. discriminate.
Defined.

(** ** The handlers when [load] fails, and the count [Latest] *)

(** X6. When [load] fails, [index] writes the error with status 500 and
    goes on to answer 200 with a page of no rows, [Total] and [Latest]
    both 0: there is no [return] after the error is written. *)
Theorem index_after_failed_load ipq w d e w' :
  load ipq w = (d, Some e, w') ->
  index ipq w =
    ([Text 500 e; Render 200 "index" (mkIndexData 0 0 [])], w').
Proof.
  intros H. rewrite (index_spec _ _ _ _ _ H).
  apply load_error in H as (-> & _). reflexivity.
Qed.

Lemma index_after_failed_load_witness :
  let w := failing_at 1 true two_rows in
  load "" w = ([], Some (ErrDriver "disk I/O error"), snd (load "" w)) /\
  fst (index "" w) =
    [Text 500 (ErrDriver "disk I/O error");
     Render 200 "index" (mkIndexData 0 0 [])].
Proof.
  intros w.
  assert (H : load "" w =
              ([], Some (ErrDriver "disk I/O error"), snd (load "" w)))
    by (vm_compute; reflexivity).
  split; [ exact H | ].
  now rewrite (index_after_failed_load "" w _ _ _ H).
Defined.

(** X7. When [load] fails, [ips] writes the error with status 500 and goes
    on to answer 200 with an empty list. *)
Theorem ips_after_failed_load w d e w' :
  load "" w = (d, Some e, w') ->
  ips w = ([Text 500 e; JSON 200 []], w').
Proof.
  intros H. rewrite (ips_spec _ _ _ _ H).
  apply load_error in H as (-> & _). reflexivity.
Qed.

Lemma ips_after_failed_load_witness :
  let w := failing_at 3 true two_rows in
  load "" w = ([], Some (ErrDriver "disk I/O error"), snd (load "" w)) /\
  fst (ips w) = [Text 500 (ErrDriver "disk I/O error"); JSON 200 []].
Proof.
  intros w.
  assert (H : load "" w =
              ([], Some (ErrDriver "disk I/O error"), snd (load "" w)))
    by (vm_compute; reflexivity).
  split; [ exact H | ].
  now rewrite (ips_after_failed_load w _ _ _ H).
Defined.

Lemma filter_length_le {A} (f : A -> bool) l :
  (List.length (filter f l) <= List.length l)%nat.
Proof.
  induction l as [|x l IH]; simpl; [ lia | ]. destruct (f x); simpl; lia.
Qed.

Lemma filter_length_0 {A} (f : A -> bool) l :
  List.length (filter f l) = 0%nat <-> forall x, In x l -> f x = false.
Proof.
  induction l as [|x l IH]; simpl.
  - split; [ intros _ y [] | reflexivity ].
  - destruct (f x) eqn:Fx; simpl.
    + split; [ discriminate | ].
      intros H. rewrite (H x (or_introl eq_refl)) in Fx. discriminate.
    + rewrite IH. split.
      * intros H y [<- | Hy]; auto.
      * intros H y Hy. apply H. now right.
Qed.

(** X8. The count [Latest] that [index] shows is between 0 and [Total],
    and it is 0 exactly when every row shown has a [LastSeen] that reads
    as a time before the zero time, as when there is no row. *)
Theorem index_Latest_bounds ipq w :
  exists failed data,
    fst (index ipq w) = failed ++ [Render 200 "index" data] /\
    0 <= Latest data <= Total data /\
    (Latest data = 0 <->
     forall r, In r (Results data) ->
       Time_compare (parseTime (LastSeen r)) zeroTime = Lt).
Proof.
  destruct (load ipq w) as [[rows e] w'] eqn:E.
  rewrite (index_spec _ _ _ _ _ E). eexists _, _.
  split; [ reflexivity | ]. cbn [Latest Total Results fst].
  rewrite countLatest_filter.
  pose proof (filter_length_le
                (fun r => Equal (parseTime (LastSeen r)) (latestOf rows)) rows).
  split; [ lia | ].
  destruct (latest_fold rows zeroTime) as (H1 & H2 & H3).
  fold (latestOf rows) in H1, H2, H3. rewrite Forall_forall in H2.
  assert (Hz : forall n, Z.of_nat n = 0 <-> n = 0%nat) by (intros; lia).
  rewrite Hz, filter_length_0. split.
  - intros Hnone r Hr.
    destruct (Time_compare (parseTime (LastSeen r)) zeroTime) eqn:Ec;
      [ | reflexivity | ].
    + apply (cmp_eq Time_ordering) in Ec.
      destruct H3 as [Hl | (r' & Hr' & Hl)].
      * specialize (Hnone r Hr). cbv beta in Hnone.
        rewrite Ec, Hl, Equal_refl in Hnone. discriminate.
      * specialize (Hnone r' Hr'). cbv beta in Hnone.
        rewrite Hl, Equal_refl in Hnone. discriminate.
    + destruct H3 as [Hl | (r' & Hr' & Hl)].
      * specialize (H2 r Hr). rewrite Hl in H2. contradiction.
      * specialize (Hnone r' Hr'). cbv beta in Hnone.
        rewrite Hl, Equal_refl in Hnone. discriminate.
  - intros Hall r Hr. apply not_true_is_false. rewrite Equal_eq. intros El.
    specialize (Hall r Hr). rewrite El in Hall.
    apply (cmp_gt_lt _ Time_ordering) in Hall. contradiction.
Qed.

(** ** [save]: what a batch does, once more *)

Lemma hits_touched e now results r : hits e (touched now results r) = hits e r.
Proof.
  unfold touched. destruct (existsb _ results); [ | reflexivity ].
  unfold hits. now destruct (Posted.Ports e).
Qed.

Lemma existsb_pointwise {A} (f g : A -> bool) l :
  (forall x, f x = g x) -> existsb f l = existsb g l.
Proof.
  intros H. induction l as [|x l IH]; simpl; [ reflexivity | ].
  now rewrite H, IH.
Qed.

Lemma touched_again now results r :
  touched now results (touched now results r) = touched now results r.
Proof.
  unfold touched at 1.
  rewrite (existsb_pointwise _ (fun e => hits e r))
    by (intros e; apply hits_touched).
  unfold touched. destruct (existsb (fun e => hits e r) results); reflexivity.
Qed.

Lemma touched_stamped_now now results r :
  lastseen r = now -> touched now results r = r.
Proof.
  intros <-. unfold touched. destruct (existsb _ results); [ | reflexivity ].
  apply set_last_same.
Qed.

Lemma known_merged tbl now results e :
  In e results -> has_port e = true -> known (merged tbl now results) e = true.
Proof.
  intros He Hp. unfold has_port in Hp.
  destruct (Posted.Ports e) as [|p ps] eqn:EP; [ discriminate | ].
  destruct (merged_lands tbl now results e p ps He EP) as (r & Hr & Hk & _).
  apply existsb_exists. exists r. split; [ exact Hr | ].
  now apply (hits_key _ _ _ _ EP).
Qed.

Lemma fresh_rows_all_known tbl now results :
  (forall e, In e results -> known tbl e = true) ->
  fresh_rows tbl now results = [].
Proof.
  induction results as [|e results IH]; intros H; [ reflexivity | ].
  unfold fresh_rows in *. simpl. rewrite (H e (or_introl eq_refl)).
  apply IH. intros e' He'. apply H. now right.
Qed.

(** Merging the same batch again at the same time changes nothing. *)
Lemma merged_again tbl now results :
  forallb has_port results = true ->
  merged (merged tbl now results) now results = merged tbl now results.
Proof.
  intros Hp. rewrite forallb_forall in Hp.
  unfold merged at 1. rewrite fresh_rows_all_known, app_nil_r.
  - rewrite <- (map_id (merged tbl now results)) at 2.
    apply map_ext_in. intros r Hr. unfold merged in Hr.
    apply in_app_or in Hr as [Hr | Hr].
    + apply in_map_iff in Hr as (r0 & <- & _). apply touched_again.
    + apply touched_stamped_now. now apply lastseen_fresh in Hr.
  - intros e He. apply known_merged; auto.
Qed.

(** X9. When nothing fails, posting a batch a second time within the
    same minute leaves the table as the first time left it. *)
Theorem save_again_same_minute now results w :
  reliable w ->
  forallb has_port results = true ->
  keyed w = false \/
    NoDup (map key (fresh_rows (committed w) (Format now) results)) ->
  exists w1 w2,
    save now results w = (Returned None, w1) /\
    save now results w1 = (Returned None, w2) /\
    committed w2 = committed w1.
Proof.
  intros R Hp Hk.
  destruct (save_reliable now results w R Hp Hk) as (w1 & E1 & T1 & _ & K1 & G1).
  assert (R1 : reliable w1) by (intros n; now rewrite G1).
  destruct (save_reliable now results w1 R1 Hp) as (w2 & E2 & T2 & _).
  { right. rewrite T1, fresh_rows_all_known; [ constructor | ].
    intros e He. rewrite forallb_forall in Hp. apply known_merged; auto. }
  exists w1, w2. split; [ exact E1 | ]. split; [ exact E2 | ].
  now rewrite T2, T1, merged_again.
Qed.

Lemma save_again_same_minute_witness :
  let w := stored true two_rows in
  let batch := [Scenario.ssh; tcp "10.0.0.7" 22] in
  (reliable w /\ forallb has_port batch = true /\
   (keyed w = false \/
    NoDup (map key (fresh_rows (committed w) (Format Scenario.minute2) batch))))
  /\
  exists w1 w2,
    save Scenario.minute2 batch w = (Returned None, w1) /\
    save Scenario.minute2 batch w1 = (Returned None, w2) /\
    committed w2 = committed w1.
Proof.
  intros w batch.
  assert (R : reliable w) by apply reliable_stored.
  assert (Hp : forallb has_port batch = true) by reflexivity.
  assert (Hk : keyed w = false \/
               NoDup (map key (fresh_rows (committed w)
                                 (Format Scenario.minute2) batch))).
  { right. vm_compute. repeat constructor. intros []. }
  split; [ repeat split; assumption | ].
  exact (save_again_same_minute Scenario.minute2 batch w R Hp Hk).
Defined.

Lemma merged_keeps tbl now results :
  Forall2
    (fun r r' =>
       key r' = key r /\ firstseen r' = firstseen r /\
       (lastseen r' = lastseen r \/ lastseen r' = now))
    tbl (map (touched now results) tbl).
Proof.
  induction tbl as [|r tbl IH]; simpl; constructor; [ | exact IH ].
  destruct (touched_fields now results r) as (Hi & Hq & Hr & Hf & Hl).
  split; [ unfold key; now rewrite Hi, Hq, Hr | ]. split; [ exact Hf | ].
  rewrite Hl. destruct (existsb _ results); auto.
Qed.

Lemma Forall2_same {A} (P : A -> A -> Prop) l :
  (forall x, P x x) -> Forall2 P l l.
Proof. intros H. induction l; constructor; auto. Qed.

(** X10. Whatever fails, and whatever the batch, [save] deletes no record
    and changes no [firstseen]: the table afterwards is the old records,
    each with its tuple and its [firstseen], its [lastseen] either as it
    was or the time of the batch, followed by the records added. *)
Theorem save_never_deletes now results w :
  exists kept added,
    committed (snd (save now results w)) = kept ++ added /\
    Forall2
      (fun r r' =>
         key r' = key r /\ firstseen r' = firstseen r /\
         (lastseen r' = lastseen r \/ lastseen r' = Format now))
      (committed w) kept.
Proof.
  destruct (save now results w) as [o w'] eqn:E. simpl.
  assert (Hsame : committed w' = committed w ->
            exists kept added,
              committed w' = kept ++ added /\
              Forall2
                (fun r r' =>
                   key r' = key r /\ firstseen r' = firstseen r /\
                   (lastseen r' = lastseen r \/ lastseen r' = Format now))
                (committed w) kept).
  { intros ->. exists (committed w), []. rewrite app_nil_r.
    split; [ reflexivity | ]. apply Forall2_same. auto. }
  apply save_spec in E as (_ & _ & _ & Ho).
  destruct o as [[e|]|].
  - apply Hsame. now destruct Ho.
  - destruct Ho as (_ & _ & _ & T & _).
    destruct (fault w (pred (calls w'))); [ now apply Hsame | ].
    rewrite T. eexists _, _. split; [ reflexivity | apply merged_keeps ].
  - apply Hsame. now destruct Ho.
Qed.

(** X11. An empty batch never changes the table and never panics,
    whatever fails. *)
Theorem save_empty_batch now w :
  committed (snd (save now [] w)) = committed w /\
  fst (save now [] w) <> Panicked.
Proof.
  destruct (save now [] w) as [o w'] eqn:E. simpl.
  apply save_spec in E as (_ & _ & _ & Ho).
  destruct o as [[e|]|].
  - split; [ now destruct Ho | discriminate ].
  - destruct Ho as (_ & _ & _ & T & _). split; [ | discriminate ].
    rewrite T, merged_nil. now destruct (fault w (pred (calls w'))).
  - destruct Ho as (_ & _ & Hf). discriminate.
Qed.

Lemma save_rows_first_port now b1 : forall b2 w,
  map first_port b1 = map first_port b2 ->
  save_rows now b1 w = save_rows now b2 w.
Proof.
  induction b1 as [|e1 b1 IH]; intros [|e2 b2] w E; try discriminate;
    [ reflexivity | ].
  cbn [map first_port] in E. injection E as Ei Ep E.
  cbn [save_rows]. rewrite Ei.
  destruct (Posted.Ports e1) as [|p1 ps1], (Posted.Ports e2) as [|p2 ps2];
    try discriminate; [ reflexivity | ].
  injection Ep as -> ->. unfold bind.
  destruct (Sql.QueryRowScan _ _ _ w) as [[[| | |]|] w1]; try reflexivity.
  - destruct (Sql.InsertExec _ _ _ _ _ w1) as [[e|] w2]; [ reflexivity | ].
    now apply IH.
  - destruct (Sql.UpdateExec _ _ _ _ w1) as [[e|] w2]; [ reflexivity | ].
    now apply IH.
Qed.

(** X12. [save] reads of an entry its [IP] and the [Port] and [Proto] of
    its first port, and no more: batches that agree on these do the same
    to the store, whatever fails.  Further ports of an entry are dropped. *)
Theorem save_reads_first_port_only now b1 b2 w :
  map first_port b1 = map first_port b2 ->
  save now b1 w = save now b2 w.
Proof.
  intros E. unfold save, bind.
  destruct (Sql.Open w) as [[e|] w1]; [ reflexivity | ].
  destruct (Sql.Begin w1) as [[e|] w2]; [ reflexivity | ].
  destruct (Sql.Prepare w2) as [[e|] w3]; [ reflexivity | ].
  destruct (Sql.Prepare w3) as [[e|] w4]; [ reflexivity | ].
  destruct (Sql.Prepare w4) as [[e|] w5]; [ reflexivity | ].
  now rewrite (save_rows_first_port _ b1 b2 w5 E).
Qed.

Lemma save_reads_first_port_only_witness :
  let p22 := Posted.mkPort 22 "tcp" "open" (Posted.mkService "ssh" "OpenSSH") in
  let p80 := Posted.mkPort 80 "tcp" "open" (Posted.mkService "http" "") in
  let b1 := [Posted.mkResult "10.0.0.1" [p22; p80]] in
  let b2 := [Scenario.ssh] in
  map first_port b1 = map first_port b2 /\
  save Scenario.minute1 b1 (empty_world true) =
  save Scenario.minute1 b2 (empty_world true).
Proof.
  intros p22 p80 b1 b2.
  assert (E : map first_port b1 = map first_port b2) by reflexivity.
  split; [ exact E | ].
  exact (save_reads_first_port_only Scenario.minute1 b1 b2 (empty_world true) E).
Defined.

(** X13. On a keyed table without duplicates and when no call fails, a
    batch whose entries all have a port is stored exactly when no two of
    its entries without a record name the same tuple; otherwise [save]
    returns the constraint error of the second insert and the table is as
    it was: the lookup, prepared on [db], does not see the first insert. *)
Theorem save_keyed_rejects_repeated_tuple now results w :
  reliable w ->
  keyed w = true ->
  NoDup (map key (committed w)) ->
  forallb has_port results = true ->
  (fst (save now results w) = Returned None <->
   NoDup (map key (fresh_rows (committed w) (Format now) results))) /\
  (fst (save now results w) = Returned None \/
   fst (save now results w) = Returned (Some ErrConstraint) /\
   committed (snd (save now results w)) = committed w).
Proof.
  intros R K Hn Hp. destruct (save now results w) as [o w'] eqn:E. simpl.
  pose proof (save_spec _ _ _ _ _ E) as (_ & _ & _ & Ho). split; [ split | ].
  - intros ->. destruct Ho as (_ & _ & _ & T & Hnd).
    specialize (Hnd K Hn). rewrite R in T. rewrite T, keys_merged in Hnd.
    now apply NoDup_app_remove_l in Hnd.
  - intros Hf.
    destruct (save_reliable now results w R Hp (or_intror Hf)) as (v & Ev & _).
    rewrite Ev in E. now injection E as <- _.
  - destruct o as [[e|]|].
    + right. destruct Ho as (T & _ & [[-> _] | (m & _ & Hm)]).
      * now split.
      * rewrite R in Hm. discriminate.
    + now left.
    + destruct Ho as (_ & _ & Hf). congruence.
Qed.

Lemma save_keyed_rejects_repeated_tuple_witness :
  let w := stored true two_rows in
  let batch := [tcp "10.0.0.7" 22; Scenario.ssh; tcp "10.0.0.7" 22] in
  (reliable w /\ keyed w = true /\ NoDup (map key (committed w)) /\
   forallb has_port batch = true) /\
  fst (save Scenario.minute2 batch w) = Returned (Some ErrConstraint) /\
  committed (snd (save Scenario.minute2 batch w)) = committed w.
Proof.
  intros w batch.
  assert (R : reliable w) by apply reliable_stored.
  assert (K : keyed w = true) by reflexivity.
  assert (Hn : NoDup (map key (committed w))).
  { vm_compute. repeat constructor; simpl; intuition discriminate. }
  assert (Hp : forallb has_port batch = true) by reflexivity.
  split; [ repeat split; assumption | ].
  destruct (proj2 (save_keyed_rejects_repeated_tuple Scenario.minute2 batch w
                     R K Hn Hp)) as [H | H]; [ | exact H ].
  exfalso. revert H. vm_compute. discriminate.
Defined.

Lemma names_same_key i p pr e q qs a b :
  Posted.Ports e = q :: qs ->
  same_key i p pr (mkRow (Posted.IP e) (Posted.Port q) (Posted.Proto q) a b) =
  names i p pr e.
Proof.
  intros EP. unfold names, hits, same_key. rewrite EP. simpl.
  now rewrite (String.eqb_sym (Posted.IP e)), (Z.eqb_sym (Posted.Port q)),
    (String.eqb_sym (Posted.Proto q)).
Qed.

Lemma same_key_touched i p pr now results r :
  same_key i p pr (touched now results r) = same_key i p pr r.
Proof. unfold touched. now destruct (existsb _ results). Qed.

Lemma count_fresh tbl now results i p pr :
  forallb has_port results = true ->
  existsb (same_key i p pr) tbl = false ->
  List.length (filter (same_key i p pr) (fresh_rows tbl now results)) =
  List.length (filter (names i p pr) results).
Proof.
  intros Hp Hno. induction results as [|e results IH]; [ reflexivity | ].
  simpl in Hp. apply andb_prop in Hp as [He Hp]. specialize (IH Hp).
  unfold has_port in He.
  destruct (Posted.Ports e) as [|q qs] eqn:EP; [ discriminate | ].
  change (fresh_rows tbl now (e :: results))
    with ((if known tbl e then [] else fresh_row now e)
          ++ fresh_rows tbl now results).
  rewrite filter_app, length_app, IH. cbn [filter].
  destruct (known tbl e) eqn:K.
  - assert (Hn : names i p pr e = false).
    { apply not_true_is_false. intros Hn.
      apply existsb_exists in K as (r0 & Hr0 & Hh).
      apply (hits_key _ _ _ _ EP) in Hh.
      rewrite <- (names_same_key _ _ _ _ _ _ "" "" EP) in Hn.
      apply same_key_iff in Hn. unfold key in Hn, Hh. simpl in Hn.
      assert (Hx : existsb (same_key i p pr) tbl = true).
      { apply existsb_exists. exists r0. split; [ exact Hr0 | ].
        apply same_key_iff. unfold key. congruence. }
      congruence. }
    now rewrite Hn.
  - unfold fresh_row. rewrite EP. cbn [filter].
    rewrite (names_same_key _ _ _ _ _ _ now now EP).
    now destruct (names i p pr e).
Qed.

(** X14. On a table without the key and when no call fails, a tuple that
    has no record is stored once for each entry of the batch that names
    it: named twice in a batch, it gets two records. *)
Theorem save_unkeyed_stores_each_entry now results w i p pr :
  reliable w ->
  keyed w = false ->
  forallb has_port results = true ->
  existsb (same_key i p pr) (committed w) = false ->
  fst (save now results w) = Returned None /\
  List.length
    (filter (same_key i p pr) (committed (snd (save now results w)))) =
  List.length (filter (names i p pr) results).
Proof.
  intros R K Hp Hno.
  destruct (save_reliable now results w R Hp (or_introl K)) as (w' & E & T & _).
  rewrite E. simpl. split; [ reflexivity | ].
  rewrite T. unfold merged. rewrite filter_app, length_app.
  rewrite (filter_none (same_key i p pr)), (count_fresh _ _ _ _ _ _ Hp Hno);
    [ reflexivity | ].
  intros r Hr. apply in_map_iff in Hr as (r0 & <- & Hr0).
  rewrite same_key_touched. apply not_true_is_false. intros Hs.
  assert (existsb (same_key i p pr) (committed w) = true)
    by (apply existsb_exists; eauto).
  congruence.
Qed.

Lemma save_unkeyed_stores_each_entry_witness :
  let w := stored false two_rows in
  let batch := [tcp "10.0.0.7" 22; Scenario.ssh; tcp "10.0.0.7" 22] in
  (reliable w /\ keyed w = false /\ forallb has_port batch = true /\
   existsb (same_key "10.0.0.7" 22 "tcp") (committed w) = false) /\
  List.length
    (filter (same_key "10.0.0.7" 22 "tcp")
       (committed (snd (save Scenario.minute2 batch w)))) = 2%nat.
Proof.
  intros w batch.
  assert (R : reliable w) by apply reliable_stored.
  assert (K : keyed w = false) by reflexivity.
  assert (Hp : forallb has_port batch = true) by reflexivity.
  assert (Hno : existsb (same_key "10.0.0.7" 22 "tcp") (committed w) = false)
    by reflexivity.
  split; [ repeat split; assumption | ].
  now rewrite (proj2 (save_unkeyed_stores_each_entry Scenario.minute2 batch w
                        "10.0.0.7" 22 "tcp" R K Hp Hno)).
Defined.

(** ** [save] when the commit fails *)

Lemma save_rows_quiet now rest : forall pre tail w,
  quiet w (calls w) (calls w + 2 * List.length rest) ->
  pending w = Some (merged (committed w) now pre) ->
  forallb has_port rest = true ->
  keyed w = false \/
    NoDup (map key (fresh_rows (committed w) now (pre ++ rest))) ->
  exists w1,
    save_rows now (rest ++ tail) w = save_rows now tail w1 /\
    framed w w1 /\ calls w1 = (calls w + 2 * List.length rest)%nat /\
    pending w1 = Some (merged (committed w) now (pre ++ rest)).
Proof.
  induction rest as [|r rest IH]; intros pre tail w Q HP Hports Hk.
  { exists w. rewrite app_nil_r. simpl.
    repeat split; auto using framed_refl; lia. }
  simpl in Hports. apply andb_prop in Hports as [Hr Hports].
  destruct (Posted.Ports r) as [|p ps] eqn:EP;
    [ unfold has_port in Hr; rewrite EP in Hr; discriminate | ].
  cbn [List.length] in Q.
  cbn [app save_rows]. rewrite EP.
  unfold Sql.QueryRowScan, bind.
  destruct (driver_quiet w) as (w1 & E1 & U1 & C1); [ apply Q; lia | ].
  rewrite E1. pose proof U1 as (K1 & T1 & P1 & G1 & _).
  cbv beta iota zeta. rewrite T1, <- (known_eq _ _ _ _ EP).
  destruct (driver_quiet w1) as (w2 & E2 & U2 & C2);
    [ rewrite G1, C1; apply Q; lia | ].
  pose proof U2 as (K2 & T2 & P2 & G2 & _).
  assert (Step : forall w3,
            framed w2 w3 -> calls w3 = calls w2 ->
            pending w3 = Some (merged (committed w) now (pre ++ [r])) ->
            exists w',
              save_rows now (rest ++ tail) w3 = save_rows now tail w' /\
              framed w w' /\
              calls w' = (calls w + 2 * List.length (r :: rest))%nat /\
              pending w' = Some (merged (committed w) now (pre ++ r :: rest))).
  { intros w3 (K3 & T3 & G3 & L3) C3 P3.
    destruct (IH (pre ++ [r]) tail w3) as (w' & E & Fr & C' & P'); auto.
    - apply (quiet_tail w w3 (calls w)); [ lia | congruence | ].
      intros k Hrange. apply Q. lia.
    - rewrite T3, T2, T1. exact P3.
    - rewrite K3, K2, K1, T3, T2, T1, <- app_assoc. exact Hk.
    - rewrite T3, T2, T1, <- app_assoc in P'. exists w'.
      split; [ exact E | ]. split; [ | split; [ | exact P' ] ].
      + eapply framed_trans; [ | exact Fr ].
        unfold framed. repeat split; try congruence. lia.
      + rewrite C'. cbn [List.length]. lia. }
  destruct (known (committed w) r) eqn:EK.
  - unfold Sql.UpdateExec, bind. rewrite E2.
    cbv beta iota zeta. rewrite P2, P1, HP.
    rewrite (merged_update _ _ _ _ _ _ EP EK).
    apply Step; [ apply framed_set_pending | reflexivity | reflexivity ].
  - unfold Sql.InsertExec, bind. rewrite E2.
    cbv beta iota zeta. rewrite P2, P1, HP.
    assert (EC : keyed w2 &&
                 existsb (same_key (Posted.IP r) (Posted.Port p) (Posted.Proto p))
                   (merged (committed w) now pre) = false).
    { rewrite K2, K1. destruct Hk as [-> | Hnd]; [ reflexivity | ].
      apply andb_false_intro2. apply not_true_is_false. intros Hin.
      apply existsb_same_key in Hin. rewrite keys_merged in Hin.
      apply in_app_or in Hin as [Hin | Hin].
      - apply existsb_same_key in Hin.
        rewrite <- (known_eq _ _ _ _ EP) in Hin. congruence.
      - rewrite fresh_rows_app, map_app in Hnd. simpl in Hnd.
        rewrite EK in Hnd. unfold fresh_row in Hnd. rewrite EP in Hnd.
        simpl in Hnd. apply NoDup_remove_2 in Hnd. apply Hnd.
        apply in_or_app. now left. }
    rewrite EC. rewrite (merged_insert _ _ _ _ _ _ EP EK).
    apply Step; [ apply framed_set_pending | reflexivity | reflexivity ].
Qed.

Lemma save_quiet_loop now results w :
  quiet w (calls w) (calls w + 5) ->
  exists w5,
    framed w w5 /\ calls w5 = (calls w + 5)%nat /\
    pending w5 = Some (committed w) /\
    save now results w =
      (let (o, w6) := save_rows (Format now) results w5 in
       match o with
       | Some out => (out, w6)
       | None => (Sql.Commit ;; ret (Returned None))%sql w6
       end).
Proof.
  intros Q. unfold save, Sql.Open, Sql.Begin, Sql.Prepare, bind.
  destruct (driver_quiet w) as (w1 & E1 & U1 & C1); [ apply Q; lia | ].
  rewrite E1. pose proof U1 as (_ & T1 & _ & G1 & _).
  destruct (driver_quiet w1) as (w2 & E2 & U2 & C2);
    [ rewrite G1, C1; apply Q; lia | ].
  rewrite E2. pose proof U2 as (_ & T2 & _ & G2 & _).
  cbv beta iota zeta.
  set (w2' := set_pending (Some (committed w2)) w2).
  destruct (driver_quiet w2') as (w3 & E3 & U3 & C3);
    [ simpl; rewrite G2, G1, C2, C1; apply Q; lia | ].
  rewrite E3. pose proof U3 as (_ & T3 & P3 & G3 & _).
  destruct (driver_quiet w3) as (w4 & E4 & U4 & C4);
    [ rewrite G3, C3; simpl; rewrite G2, G1, C2, C1; apply Q; lia | ].
  rewrite E4. pose proof U4 as (_ & T4 & P4 & G4 & _).
  destruct (driver_quiet w4) as (w5 & E5 & U5 & C5);
    [ rewrite G4, C4, G3, C3; simpl; rewrite G2, G1, C2, C1; apply Q; lia | ].
  rewrite E5. pose proof U5 as (_ & T5 & P5 & G5 & _).
  exists w5. split; [ | split; [ | split ] ].
  - eapply framed_trans;
      [ apply untouched_framed; exact (untouched_trans _ _ _ U1 U2) | ].
    eapply framed_trans; [ apply (framed_set_pending (Some (committed w2))) | ].
    apply untouched_framed.
    exact (untouched_trans _ _ _ U3 (untouched_trans _ _ _ U4 U5)).
  - rewrite C5, C4, C3. simpl. rewrite C2, C1. lia.
  - rewrite P5, P4, P3. simpl. now rewrite T2, T1.
  - cbv beta iota zeta.
    destruct (save_rows (Format now) results w5) as [[o|] w6]; reflexivity.
Qed.

(** X15. When every call succeeds but the final [txn.Commit()], [save]
    still returns [nil], and nothing of the batch is stored: the source
    drops the error of the commit. *)
Theorem save_commit_failure_is_silent now results w m :
  quiet w (calls w) (calls w + 5 + 2 * List.length results) ->
  fault w (calls w + 5 + 2 * List.length results) = Some m ->
  forallb has_port results = true ->
  keyed w = false \/
    NoDup (map key (fresh_rows (committed w) (Format now) results)) ->
  exists w',
    save now results w = (Returned None, w') /\
    committed w' = committed w /\ pending w' = None.
Proof.
  intros Q F Hp Hk.
  destruct (save_quiet_loop now results w) as (w5 & Fr5 & C5 & P5 & E).
  { intros k Hk'. apply Q. lia. }
  pose proof Fr5 as (K5 & T5 & G5 & L5).
  destruct (save_rows_quiet (Format now) results [] [] w5)
    as (w6 & E6 & Fr6 & C6 & P6).
  - apply (quiet_tail w w5 (calls w)); [ lia | exact G5 | ].
    intros k Hk'. apply Q. lia.
  - now rewrite merged_nil, T5.
  - exact Hp.
  - now rewrite K5, T5.
  - rewrite app_nil_r in E6. rewrite E, E6. cbn [save_rows ret].
    pose proof Fr6 as (K6 & T6 & G6 & L6).
    unfold Sql.Commit, bind.
    destruct (driver_run w6) as (w7 & E7 & U7 & C7). rewrite E7.
    assert (F6 : fault w6 (calls w6) = Some m)
      by (rewrite G6, G5, C6, C5, <- F; f_equal; lia).
    rewrite F6. cbn [option_map]. eexists. split; [ reflexivity | ].
    destruct U7 as (_ & T7 & _). simpl. split; [ congruence | reflexivity ].
Qed.

Lemma save_commit_failure_is_silent_witness :
  let w := failing_at 9 true two_rows in
  let batch := [Scenario.ssh; tcp "10.0.0.7" 22] in
  (quiet w (calls w) (calls w + 5 + 2 * List.length batch) /\
   fault w (calls w + 5 + 2 * List.length batch) = Some "disk I/O error" /\
   forallb has_port batch = true /\
   (keyed w = false \/
    NoDup (map key (fresh_rows (committed w) (Format Scenario.minute2) batch))))
  /\
  exists w',
    save Scenario.minute2 batch w = (Returned None, w') /\
    committed w' = committed w /\ pending w' = None.
Proof.
  intros w batch.
  assert (Q : quiet w (calls w) (calls w + 5 + 2 * List.length batch)).
  { intros k Hk. simpl in Hk. unfold w, failing_at. cbn [fault].
    destruct (Nat.eqb_spec k 9); [ lia | reflexivity ]. }
  assert (F : fault w (calls w + 5 + 2 * List.length batch) =
              Some "disk I/O error") by reflexivity.
  assert (Hp : forallb has_port batch = true) by reflexivity.
  assert (Hk : keyed w = false \/
               NoDup (map key (fresh_rows (committed w)
                                 (Format Scenario.minute2) batch))).
  { right. vm_compute. repeat constructor. intros []. }
  split; [ repeat split; assumption | ].
  exact (save_commit_failure_is_silent Scenario.minute2 batch w _ Q F Hp Hk).
Defined.

(** ** A batch, then the report *)

Lemma load_after_save s now results w :
  reliable w ->
  forallb has_port results = true ->
  keyed w = false \/
    NoDup (map key (fresh_rows (committed w) (Format now) results)) ->
  fst (save now results w) = Returned None /\
  fst (load s (snd (save now results w))) =
    (map display
       (Sql.order_by
          (filter (matches s) (merged (committed w) (Format now) results))),
     None).
Proof.
  intros R Hp Hk.
  destruct (save_reliable now results w R Hp Hk) as (w' & E & T & _ & _ & G).
  rewrite E. simpl. split; [ reflexivity | ].
  assert (R' : reliable w') by (intros n; now rewrite G).
  now rewrite (load_reliable_rows s w' R'), T.
Qed.

Lemma in_loaded s l r :
  In r (map display (Sql.order_by (filter (matches s) l))) <->
  exists r0, In r0 l /\ matches s r0 = true /\ r = display r0.
Proof.
  rewrite in_map_iff. split.
  - intros (r0 & <- & H).
    apply (Permutation_in _ (order_by_perm _)) in H.
    apply filter_In in H as [H1 H2]. now exists r0.
  - intros (r0 & H1 & H2 & ->). exists r0. split; [ reflexivity | ].
    apply (Permutation_in _ (Permutation_sym (order_by_perm _))).
    now apply filter_In.
Qed.

(** X16. When nothing fails, what [save] stored [load] shows: after a
    batch, the unfiltered report has, for every entry, a row with the
    entry's [IP] and its first port's [Port] and [Proto], whose [LastSeen]
    reads back as the time of the batch. *)
Theorem save_then_load_shows_batch now results w e p ps :
  reliable w ->
  validTime now ->
  forallb has_port results = true ->
  keyed w = false \/
    NoDup (map key (fresh_rows (committed w) (Format now) results)) ->
  In e results -> Posted.Ports e = p :: ps ->
  exists r,
    In r (fst (fst (load "" (snd (save now results w))))) /\
    IP r = Posted.IP e /\ Port r = Posted.Port p /\ Proto r = Posted.Proto p /\
    LastSeen r = Format now /\ parseTime (LastSeen r) = now.
Proof.
  intros R V Hp Hk He EP.
  destruct (load_after_save "" now results w R Hp Hk) as (_ & El).
  rewrite El. simpl.
  destruct (merged_lands (committed w) (Format now) results e p ps He EP)
    as (r0 & Hr0 & Hkey & Hl).
  exists (display r0). split.
  - apply in_loaded. exists r0. auto using matches_empty.
  - unfold key in Hkey. injection Hkey as Hi Hq Hr. simpl.
    rewrite Hl, parseTime_Format by assumption. auto.
Qed.

Lemma save_then_load_shows_batch_witness :
  let w := stored true two_rows in
  let batch := [Scenario.ssh; tcp "10.0.0.7" 22] in
  (reliable w /\ validTime Scenario.minute2 /\
   forallb has_port batch = true /\
   (keyed w = false \/
    NoDup (map key (fresh_rows (committed w) (Format Scenario.minute2) batch)))
   /\ In (tcp "10.0.0.7" 22) batch) /\
  exists r,
    In r (fst (fst (load "" (snd (save Scenario.minute2 batch w))))) /\
    IP r = "10.0.0.7" /\ Port r = 22 /\ Proto r = "tcp" /\
    LastSeen r = Format Scenario.minute2 /\
    parseTime (LastSeen r) = Scenario.minute2.
Proof.
  intros w batch.
  assert (R : reliable w) by apply reliable_stored.
  assert (Hp : forallb has_port batch = true) by reflexivity.
  assert (Hk : keyed w = false \/
               NoDup (map key (fresh_rows (committed w)
                                 (Format Scenario.minute2) batch))).
  { right. vm_compute. repeat constructor. intros []. }
  assert (He : In (tcp "10.0.0.7" 22) batch) by (right; left; reflexivity).
  split;
    [ exact (conj R (conj validTime_minute2 (conj Hp (conj Hk He)))) | ].
  destruct (save_then_load_shows_batch Scenario.minute2 batch w
              (tcp "10.0.0.7" 22) _ _ R validTime_minute2 Hp Hk He eq_refl)
    as (r & H1 & H2 & H3 & H4 & H5 & H6).
  exists r. exact (conj H1 (conj H2 (conj H3 (conj H4 (conj H5 H6))))).
Defined.

Lemma Time_lt_not_le t u : Time_compare t u = Lt -> ~ Time_le u t.
Proof.
  intros H Hle. apply Hle. now apply (cmp_gt_lt _ Time_ordering).
Qed.

(** X17. In a store filled by [save], after a batch at a later minute and
    when nothing fails, a row of the report that was last seen in that
    batch has [New] set exactly when its tuple had no record before: [New]
    marks the tuples first seen in the latest batch. *)
Theorem later_batch_New_iff_first_seen t now results w s r :
  ingested t w ->
  reliable w ->
  validTime now -> Time_compare t now = Lt ->
  forallb has_port results = true ->
  keyed w = false \/
    NoDup (map key (fresh_rows (committed w) (Format now) results)) ->
  In r (fst (fst (load s (snd (save now results w))))) ->
  LastSeen r = Format now ->
  (New r = true <-> ~ In (IP r, Port r, Proto r) (map key (committed w))).
Proof.
  intros Hing R V Hlt Hp Hk Hr Hl.
  destruct (load_after_save s now results w R Hp Hk) as (_ & El).
  rewrite El in Hr. simpl in Hr.
  apply in_loaded in Hr as (r0 & Hr0 & _ & ->).
  apply ingested_stamped in Hing as [Hs _]. rewrite Forall_forall in Hs.
  unfold merged in Hr0. apply in_app_or in Hr0 as [Hr0 | Hr0].
  - apply in_map_iff in Hr0 as (r1 & <- & Hr1).
    destruct (Hs r1 Hr1) as (f & l & Vf & Vl & Ef & El1 & Hfl & Hlt').
    destruct (touched_fields (Format now) results r1)
      as (Hi & Hq & Hpr & Hf & _).
    assert (Hnew : New (display (touched (Format now) results r1)) = false).
    { simpl in Hl. simpl. rewrite Hl, Hf, Ef.
      rewrite !parseTime_Format by assumption.
      apply not_true_is_false. rewrite Equal_eq. intros <-.
      apply (Time_lt_not_le _ _ Hlt). eauto using Time_le_trans. }
    rewrite Hnew. split; [ discriminate | ].
    intros Hnot. exfalso. apply Hnot. simpl. rewrite Hi, Hq, Hpr.
    apply in_map_iff. now exists r1.
  - pose proof (fresh_not_stored _ _ _ _ Hr0) as Hnot.
    apply lastseen_fresh in Hr0 as [E1 E2].
    split; [ intros _; exact Hnot | intros _ ].
    simpl. rewrite E1, E2. apply Equal_refl.
Qed.

Lemma later_batch_New_iff_first_seen_witness :
  let w := Scenario.twice true in
  let now := mkTime 2024 3 9 7 7 in
  let batch := [Scenario.ssh; tcp "10.0.0.7" 22] in
  let r := mkScandata "10.0.0.7" 22 "tcp" (Format now) (Format now) true in
  (ingested Scenario.minute2 w /\ reliable w /\ validTime now /\
   Time_compare Scenario.minute2 now = Lt /\
   forallb has_port batch = true /\
   In r (fst (fst (load "" (snd (save now batch w))))) /\
   LastSeen r = Format now) /\
  (New r = true <-> ~ In (IP r, Port r, Proto r) (map key (committed w))).
Proof.
  intros w now batch r.
  assert (Hing : ingested Scenario.minute2 w).
  { apply (ingested_save Scenario.minute1 Scenario.minute2 [Scenario.ssh]
             (snd (save Scenario.minute1 [Scenario.ssh] (empty_world true)))).
    - apply (ingested_save Scenario.minute1 Scenario.minute1 [Scenario.ssh]
               (empty_world true)).
      + apply ingested_empty.
      + apply validTime_minute1.
      + apply Time_le_refl.
      + vm_compute. reflexivity.
    - apply validTime_minute2.
    - vm_compute. discriminate.
    - vm_compute. reflexivity. }
  assert (R : reliable w) by (intros n; reflexivity).
  assert (V : validTime now)
    by (unfold validTime; repeat split; vm_compute; discriminate).
  assert (Hlt : Time_compare Scenario.minute2 now = Lt) by reflexivity.
  assert (Hp : forallb has_port batch = true) by reflexivity.
  assert (Hk : keyed w = false \/
               NoDup (map key (fresh_rows (committed w) (Format now) batch))).
  { right. vm_compute. repeat constructor. intros []. }
  assert (Hr : In r (fst (fst (load "" (snd (save now batch w))))))
    by (vm_compute; right; left; reflexivity).
  assert (Hl : LastSeen r = Format now) by reflexivity.
  split;
    [ exact (conj Hing (conj R (conj V (conj Hlt (conj Hp (conj Hr Hl))))))
    | ].
  exact (later_batch_New_iff_first_seen Scenario.minute2 now batch w "" r
           Hing R V Hlt Hp Hk Hr Hl).
Defined.

Lemma filter_length_perm {A} (f : A -> bool) l l' :
  Permutation l l' ->
  List.length (filter f l) = List.length (filter f l').
Proof.
  induction 1 as [ | x l l' _ IH | x y l | l l' l'' _ IH1 _ IH2 ]; simpl.
  - reflexivity.
  - destruct (f x); simpl; now rewrite IH.
  - destruct (f x), (f y); reflexivity.
  - now rewrite IH1.
Qed.

Lemma fresh_rows_length tbl now results :
  forallb has_port results = true ->
  List.length (fresh_rows tbl now results) =
  List.length (filter (fun e => negb (known tbl e)) results).
Proof.
  intros Hp. symmetry. eapply Forall2_length.
  now apply fresh_rows_one_each.
Qed.

(** Among the rows after a batch at a later minute, those whose [lastseen]
    reads as the time of the batch are the old rows that an entry names and
    the rows added. *)
Lemma count_seen_now t now tbl results :
  validTime now -> Time_compare t now = Lt ->
  Forall (stamped t) tbl ->
  forallb has_port results = true ->
  List.length
    (filter (fun r => Equal (parseTime (lastseen r)) now)
       (merged tbl (Format now) results)) =
  (List.length (filter (fun r => existsb (fun e => hits e r) results) tbl) +
   List.length (filter (fun e => negb (known tbl e)) results))%nat.
Proof.
  intros V Hlt Hs Hp. unfold merged. rewrite filter_app, length_app. f_equal.
  - rewrite filter_map_swap, length_map. f_equal.
    apply filter_ext_in. intros r Hr. rewrite Forall_forall in Hs.
    destruct (Hs r Hr) as (f & l & Vf & Vl & Ef & El & Hfl & Hl).
    unfold touched. destruct (existsb (fun e => hits e r) results).
    + simpl. rewrite parseTime_Format by assumption. apply Equal_refl.
    + rewrite El, parseTime_Format by assumption.
      apply not_true_is_false. rewrite Equal_eq. intros ->.
      now apply (Time_lt_not_le _ _ Hlt).
  - rewrite filter_all; [ now apply fresh_rows_length | ].
    intros r Hr. apply lastseen_fresh in Hr as [-> _].
    rewrite parseTime_Format by assumption. apply Equal_refl.
Qed.

(** X18. In a store filled by [save], after a batch with an entry at a
    later minute, not before the zero time, and when nothing fails, the
    unfiltered page shows as [Latest] the number of rows of that batch: the
    old records that an entry names and the records added; [Total] is the
    old records and the records added. *)
Theorem index_after_later_batch t now results w :
  ingested t w ->
  reliable w ->
  validTime now -> Time_compare t now = Lt -> Time_le zeroTime now ->
  forallb has_port results = true ->
  results <> [] ->
  keyed w = false \/
    NoDup (map key (fresh_rows (committed w) (Format now) results)) ->
  exists data,
    fst (index "" (snd (save now results w))) = [Render 200 "index" data] /\
    Total data =
      Z.of_nat
        (List.length (committed w) +
         List.length
           (filter (fun e => negb (known (committed w) e)) results)) /\
    Latest data =
      Z.of_nat
        (List.length
           (filter (fun r => existsb (fun e => hits e r) results)
                   (committed w)) +
         List.length
           (filter (fun e => negb (known (committed w) e)) results)).
Proof.
  intros Hing R V Hlt Hz Hp Hne Hk.
  apply ingested_stamped in Hing as [Hs _].
  destruct (save_reliable now results w R Hp Hk) as (w' & E & T & _ & _ & G).
  rewrite E. cbn [snd].
  assert (R' : reliable w') by (intros n; now rewrite G).
  destruct (load "" w') as [[d e] w''] eqn:El.
  rewrite (index_spec _ _ _ _ _ El).
  apply load_spec in El as (_ & _ & _ & Hr). destruct (Hr R') as (-> & ->).
  clear Hr. rewrite T.
  set (M := merged (committed w) (Format now) results).
  rewrite (filter_all (matches "") M) by (intros r _; apply matches_empty).
  set (rows := map display (Sql.order_by M)).
  assert (HM : Forall (stamped now) M)
    by (apply (stamped_merged t); auto using Time_lt_le).
  rewrite Forall_forall in HM.
  assert (Hin : forall r, In r rows <-> exists r0, In r0 M /\ r = display r0).
  { intros r. unfold rows. rewrite in_map_iff. split.
    - intros (r0 & <- & H). exists r0. split; [ | reflexivity ].
      now apply (Permutation_in _ (order_by_perm _)).
    - intros (r0 & H & ->). exists r0. split; [ reflexivity | ].
      now apply (Permutation_in _ (Permutation_sym (order_by_perm _))). }
  assert (HA : forall r, In r rows -> Time_le (parseTime (LastSeen r)) now).
  { intros r Hr. apply Hin in Hr as (r0 & Hr0 & ->).
    destruct (HM r0 Hr0) as (f & l & Vf & Vl & Ef & El & Hfl & Hl).
    simpl. now rewrite El, parseTime_Format. }
  assert (HB : exists r, In r rows /\ parseTime (LastSeen r) = now).
  { destruct results as [|e results]; [ contradiction | ].
    simpl in Hp. apply andb_prop in Hp as [He _]. unfold has_port in He.
    destruct (Posted.Ports e) as [|p ps] eqn:EP; [ discriminate | ].
    destruct (merged_lands (committed w) (Format now) (e :: results) e p ps
                (or_introl eq_refl) EP) as (r0 & Hr0 & _ & Hl).
    exists (display r0). split; [ apply Hin; now exists r0 | ].
    simpl. now rewrite Hl, parseTime_Format. }
  assert (Hlatest : latestOf rows = now).
  { destruct (latest_fold rows zeroTime) as (H1 & H2 & H3).
    fold (latestOf rows) in H1, H2, H3. rewrite Forall_forall in H2.
    apply Time_le_antisym.
    - destruct H3 as [-> | (r & Hr & ->)]; auto.
    - destruct HB as (r & Hr & <-). auto. }
  eexists. split; [ reflexivity | ]. cbn [Total Latest].
  rewrite Hlatest, countLatest_filter. unfold rows.
  rewrite filter_map_swap, !length_map. cbn [LastSeen display].
  rewrite (filter_length_perm _ _ _ (order_by_perm M)).
  rewrite (Permutation_length (order_by_perm M)).
  unfold M. rewrite (count_seen_now t) by assumption.
  unfold merged. rewrite length_app, length_map, fresh_rows_length by assumption.
  split; reflexivity.
Qed.

Lemma index_after_later_batch_witness :
  let w := Scenario.twice true in
  let now := mkTime 2024 3 9 7 7 in
  let batch := [Scenario.ssh; tcp "10.0.0.7" 22; tcp "10.0.0.8" 22] in
  (ingested Scenario.minute2 w /\ reliable w /\ validTime now /\
   Time_compare Scenario.minute2 now = Lt /\ Time_le zeroTime now /\
   forallb has_port batch = true /\ batch <> []) /\
  exists data,
    fst (index "" (snd (save now batch w))) = [Render 200 "index" data] /\
    Total data = 3 /\ Latest data = 3.
Proof.
  intros w now batch.
  assert (Hing : ingested Scenario.minute2 w).
  { apply (ingested_save Scenario.minute1 Scenario.minute2 [Scenario.ssh]
             (snd (save Scenario.minute1 [Scenario.ssh] (empty_world true)))).
    - apply (ingested_save Scenario.minute1 Scenario.minute1 [Scenario.ssh]
               (empty_world true)).
      + apply ingested_empty.
      + apply validTime_minute1.
      + apply Time_le_refl.
      + vm_compute. reflexivity.
    - apply validTime_minute2.
    - vm_compute. discriminate.
    - vm_compute. reflexivity. }
  assert (R : reliable w) by (intros n; reflexivity).
  assert (V : validTime now)
    by (unfold validTime; repeat split; vm_compute; discriminate).
  assert (Hlt : Time_compare Scenario.minute2 now = Lt) by reflexivity.
  assert (Hz : Time_le zeroTime now) by (vm_compute; discriminate).
  assert (Hp : forallb has_port batch = true) by reflexivity.
  assert (Hne : batch <> []) by discriminate.
  assert (Hk : keyed w = false \/
               NoDup (map key (fresh_rows (committed w) (Format now) batch))).
  { right. vm_compute. repeat constructor; simpl; intuition discriminate. }
  split;
    [ exact (conj Hing (conj R (conj V (conj Hlt (conj Hz (conj Hp Hne))))))
    | ].
  destruct (index_after_later_batch Scenario.minute2 now batch w
              Hing R V Hlt Hz Hp Hne Hk) as (data & H1 & H2 & H3).
  exists data. split; [ exact H1 | ].
  assert (Ec : committed w =
               [mkRow "10.0.0.1" 22 "tcp" "2024-03-09 07:05" "2024-03-09 07:06"])
    by (vm_compute; reflexivity).
  rewrite Ec in H2, H3. split; [ exact H2 | exact H3 ].
Defined.

(** ** [recvResults] *)

Lemma recvResults_inl now res w :
  recvResults now (inl res) w =
    (match fst (save now res w) with
     | Returned (Some e) => Some (String500 (OfError e))
     | Returned None => Some NoContent200
     | Panicked => None
     end, snd (save now res w)).
Proof.
  unfold recvResults, bind. destruct (save now res w) as [[[e|]|] w'];
    reflexivity.
Qed.

(** X19. [recvResults] answers 500 with the message of [c.Bind] when the
    body does not bind, and then makes no call into the store.  When it
    does not answer 200, because [save] failed or panicked, the table is as
    it was; it panics only on an entry without a port; when it answers 200
    the table is as it was or has the whole batch.  When nothing fails and
    the batch can be stored, it answers 200 and the batch is stored. *)
Theorem recvResults_answer now bound w :
  let a := fst (recvResults now bound w) in
  let w' := snd (recvResults now bound w) in
  (forall msg, bound = inr msg ->
     a = Some (String500 (OfBind msg)) /\ w' = w) /\
  (a <> Some NoContent200 -> committed w' = committed w) /\
  (a = None ->
   exists res e, bound = inl res /\ In e res /\ Posted.Ports e = []) /\
  (a = Some NoContent200 ->
   exists res, bound = inl res /\
     (committed w' = committed w \/
      committed w' = merged (committed w) (Format now) res)) /\
  (forall res, bound = inl res ->
     reliable w -> forallb has_port res = true ->
     keyed w = false \/
       NoDup (map key (fresh_rows (committed w) (Format now) res)) ->
     a = Some NoContent200 /\
     committed w' = merged (committed w) (Format now) res).
Proof.
  intros a w'. subst a w'. destruct bound as [res | msg].
  - rewrite recvResults_inl. cbn [fst snd].
    destruct (save now res w) as [o v] eqn:E. cbn [fst snd].
    pose proof (save_spec _ _ _ _ _ E) as (_ & _ & _ & Ho).
    split; [ discriminate | ]. split; [ | split; [ | split ] ].
    + intros Ha. destruct o as [[e|]|]; [ | contradiction | ];
        now destruct Ho.
    + intros Ha. destruct o as [[e|]|]; try discriminate.
      destruct Ho as (_ & _ & Hf).
      apply first_portless in Hf as (pre & r & post & -> & _ & Hr).
      exists (pre ++ r :: post), r. split; [ reflexivity | ].
      split; [ apply in_or_app; right; now left | exact Hr ].
    + intros Ha. exists res. split; [ reflexivity | ].
      destruct o as [[e|]|]; try discriminate.
      destruct Ho as (_ & _ & _ & T & _).
      destruct (fault w (pred (calls v))); auto.
    + intros res' [= <-] R Hp Hk.
      destruct (save_reliable now res w R Hp Hk) as (v' & Ev & T & _).
      rewrite Ev in E. injection E as <- <-. now split.
  - cbn. split; [ intros m [= <-]; now split | ].
    split; [ reflexivity | ]. split; [ discriminate | ].
    split; [ discriminate | ]. intros res [=].
Qed.
